(** * NFL survivor pool: the pick-editing front end, verified

    A shallow embedding of the helper functions and state updaters of
    [SurvivorUI] (the React component of the survivor-pool optimiser) and
    the properties its specification states about them.

    JavaScript values are modelled as the code uses them:
    - a cell of a pick table is [null], [undefined] (also what reading
      past the end of an array yields) or a string;
    - arrays are lists, read with a default of [undefined] and written
      with the array growing when the index is past the end;
    - array indices are [nat]; week numbers and entry counts are [Z]. *)

From Stdlib Require Import ZArith QArith Qround Lia String Ascii List.
From Stdlib Require Import Sorting.Sorted Permutation Reals Psatz.
From Stdlib Require OrderedTypeEx.
From stdpp Require Import base list strings gmap.
From stdpp Require sorting.

Close Scope Q_scope.
Close Scope R_scope.

Local Open Scope string_scope.
Local Open Scope list_scope.

(** ** JavaScript values held in pick tables *)

Module JS.

Inductive jsval : Type :=
| JNull
| JUndefined
| JStr (s : string).

#[global] Instance jsval_eq_dec : EqDecision jsval.
Proof. solve_decision. Defined.

(** [===] on the values above. *)
Definition strict_eq (a b : jsval) : bool := bool_decide (a = b).

(** ToBoolean: [null], [undefined] and the empty string are falsy. *)
Definition truthy (v : jsval) : bool :=
  match v with
  | JStr s => negb (String.eqb s "")
  | _ => false
  end.

(** [arr[i]] for reading: past the end it is [undefined]. *)
Definition get (arr : list jsval) (i : nat) : jsval :=
  default JUndefined (arr !! i).

(** [arr[i] = v]: in range the slot is overwritten; past the end the
    array grows, the slots in between reading as [undefined]. *)
Definition set (arr : list jsval) (i : nat) (v : jsval) : list jsval :=
  if decide (i < length arr) then <[i:=v]> arr
  else arr ++ replicate (i - length arr) JUndefined ++ [v].

(** Numbers as the handlers see them: [NaN] or an integer (the result
    of [parseInt], an array length). *)
Inductive jsnum : Type :=
| NaN
| Num (z : Z).

#[global] Instance jsnum_eq_dec : EqDecision jsnum.
Proof. solve_decision. Defined.

(** [a < b] and [a > b]: every comparison with [NaN] is false. *)
Definition lt (a b : jsnum) : bool :=
  match a, b with
  | Num x, Num y => bool_decide (x < y)%Z
  | _, _ => false
  end.

Definition gt (a b : jsnum) : bool := lt b a.

(** White space skipped by [parseInt] (code units below 256): TAB, LF,
    VT, FF, CR, SP and NBSP. *)
Definition isWhiteSpace (c : ascii) : bool :=
  let n := nat_of_ascii c in
  bool_decide (n = 9 ∨ n = 10 ∨ n = 11 ∨ n = 12 ∨ n = 13 ∨ n = 32 ∨ n = 160).

Fixpoint trimStart (s : string) : string :=
  match s with
  | String c s' => if isWhiteSpace c then trimStart s' else s
  | EmptyString => s
  end.

(** Value of a digit character in radix up to 36. *)
Definition digitValue (c : ascii) : option Z :=
  let n := Z.of_nat (nat_of_ascii c) in
  if bool_decide (48 ≤ n ≤ 57)%Z then Some (n - 48)%Z
  else if bool_decide (97 ≤ n ≤ 122)%Z then Some (n - 87)%Z
  else if bool_decide (65 ≤ n ≤ 90)%Z then Some (n - 55)%Z
  else None.

(** The longest prefix of radix-[R] digits, read as a number; [acc] is
    [None] until a first digit is seen. *)
Fixpoint parseDigits (R : Z) (s : string) (acc : option Z) : option Z :=
  match s with
  | String c s' =>
      match digitValue c with
      | Some d =>
          if bool_decide (d < R)%Z
          then parseDigits R s' (Some (default 0 acc * R + d))%Z
          else acc
      | None => acc
      end
  | EmptyString => acc
  end.

(** [parseInt(s, radix)]; [radix = None] is the one-argument call.
    Radixes 10 and 16 are the ones the component uses. The sign of zero
    and the rounding of integers beyond 2^53 are not modelled. *)
Definition parseInt (s : string) (radix : option Z) : jsnum :=
  let s := trimStart s in
  let '(sign, s) :=
    match s with
    | String "-" s' => ((-1)%Z, s')
    | String "+" s' => (1%Z, s')
    | _ => (1%Z, s)
    end in
  let stripPrefix := bool_decide (radix = None ∨ radix = Some 16%Z) in
  let R := default 10%Z radix in
  let '(R, s) :=
    match s with
    | String "0" (String x s') =>
        if stripPrefix && (Ascii.eqb x "x" || Ascii.eqb x "X")
        then (16%Z, s') else (R, s)
    | _ => (R, s)
    end in
  match parseDigits R s None with
  | Some n => Num (sign * n)
  | None => NaN
  end.

End JS.

Import JS.

(** ** Pick tables: [editPicks], indexed [week][entry] *)

Module Picks.

Abbreviation row := (list jsval).
Abbreviation table := (list (list jsval)).

(** [picks[w][e]]: [None] when there is no row [w] (the read would throw),
    otherwise the cell, [undefined] past the end of the row. *)
Definition cell (picks : table) (w e : nat) : option jsval :=
  r ← picks !! w; Some (get r e).

(** The [for] loop of [handlePickChange]: [n] iterations starting at week
    [w], each turning the cell of [entryIdx] into [null] when it holds
    [team]. *)
Fixpoint clearLater (n : nat) (w entryIdx : nat) (team : jsval)
    (updated : table) : table :=
  match n with
  | O => updated
  | S n' =>
      let updated' :=
        match updated !! w with
        | Some r =>
            if strict_eq (get r entryIdx) team
            then <[w := set r entryIdx JNull]> updated
            else updated
        | None => updated
        end in
      clearLater n' (S w) entryIdx team updated'
  end.

(** The updater passed to [setEditPicks] by [handlePickChange]:
    [None] is the TypeError of writing into a week row that does not
    exist. *)
Definition handlePickChange (prev : table) (weekIdx entryIdx : nat)
    (team : jsval) : option table :=
  let updated := prev in (* prev.map(arr => [...arr]): a copy *)
  match updated !! weekIdx with
  | None => None
  | Some r =>
      let updated := <[weekIdx := set r entryIdx team]> updated in
      Some (clearLater (length updated - S weekIdx) (S weekIdx)
              entryIdx team updated)
  end.

(** A week of entry [e] holds team [t]: the cell is the non-empty
    string [t] (the empty string, [null] and [undefined] are no pick). *)
Definition holds (picks : table) (w e : nat) (t : string) : Prop :=
  cell picks w e = Some (JStr t) ∧ t ≠ "".

(** No team is held twice by entry [e]. *)
Definition noReuse (picks : table) (e : nat) : Prop :=
  ∀ w1 w2 t, holds picks w1 e t → holds picks w2 e t → w1 = w2.

(** The updater passed to [setSelectedTeams] by [handleCheckboxChange]. *)
Definition handleCheckboxChange (entries : jsnum) (prev : list string)
    (team : string) : list string :=
  if bool_decide (team ∈ prev) then
    filter (λ t, t ≠ team) prev
  else if lt (Num (Z.of_nat (length prev))) entries then
    prev ++ [team]
  else prev.

(** [weekEntryArray[week][entry] || ""]. *)
Definition orEmpty (v : jsval) : jsval :=
  if truthy v then v else JStr "".

(** [transposePicks]; the argument is [None] for [null]/[undefined].
    The two [for] loops run over [0 .. numEntries-1] and
    [0 .. numWeeks-1]; every [week < numWeeks] has a row. *)
Definition transposePicks (weekEntryArray : option table) : table :=
  match weekEntryArray with
  | None => []
  | Some a =>
      if bool_decide (length a = 0) then []
      else
        let numWeeks := length a in
        let numEntries := from_option length 0 (a !! 0) in
        map (λ entry,
               map (λ week, orEmpty (get (default [] (a !! week)) entry))
                   (seq 0 numWeeks))
            (seq 0 numEntries)
  end.

End Picks.

(** ** The schedule and the teams of a week *)

Module Schedule.

Record game : Type := Game { week : Z; home : string; away : string }.

(** [Set.prototype.add] on a set kept in insertion order. *)
Definition setAdd {A} `{EqDecision A} (s : list A) (x : A) : list A :=
  if bool_decide (x ∈ s) then s else s ++ [x].

(** The [forEach] that collects both teams of every game of [week]. *)
Definition collectTeams (schedule : list game) (wk : Z) : list string :=
  fold_left
    (λ teams g,
       if bool_decide (week g = wk)
       then setAdd (setAdd teams (home g)) (away g)
       else teams)
    schedule [].

(** [Array.prototype.sort()] on strings: ascending by code units. *)
Fixpoint insertSorted (x : string) (l : list string) : list string :=
  match l with
  | [] => [x]
  | y :: l' => if String.leb x y then x :: l else y :: insertSorted x l'
  end.

Definition sortStrings (l : list string) : list string :=
  fold_right insertSorted [] l.

(** The order of that sort, and its strict part. *)
Definition leS (a b : string) : Prop := String.leb a b = true.
Definition ltS (a b : string) : Prop := String.ltb a b = true.

Definition getTeamsForWeek (schedule : list game) (weekIdx : nat)
    : list string :=
  let wk := (Z.of_nat weekIdx + 1)%Z in
  sortStrings (collectTeams schedule wk).

(** The loop of [getAvailableTeamsForEntryWeek] over the weeks before
    [weekIdx], collecting the truthy picks of [entryIdx]. *)
Definition alreadyPicked (picks : Picks.table) (weekIdx entryIdx : nat)
    : list jsval :=
  fold_left
    (λ acc w,
       match picks !! w with
       | Some r =>
           if truthy (get r entryIdx) then setAdd acc (get r entryIdx)
           else acc
       | None => acc
       end)
    (seq 0 weekIdx) [].

Definition getAvailableTeamsForEntryWeek (schedule : list game)
    (picks : Picks.table) (weekIdx entryIdx : nat) : list string :=
  let weekNum := (Z.of_nat weekIdx + 1)%Z in
  let teamsThisWeek := collectTeams schedule weekNum in
  let picked := alreadyPicked picks weekIdx entryIdx in
  filter (λ team, JStr team ∉ picked) teamsThisWeek.

(** A sequence of pick edits, each giving some entry, for some week, a
    team on offer to it there (what the pick dropdown allows). *)
Inductive offeredEdits (schedule : list game)
    : Picks.table → Picks.table → Prop :=
| offered_done picks : offeredEdits schedule picks picks
| offered_step picks w e t updated final :
    t ∈ getAvailableTeamsForEntryWeek schedule picks w e →
    Picks.handlePickChange picks w e (JStr t) = Some updated →
    offeredEdits schedule updated final →
    offeredEdits schedule picks final.

End Schedule.

(** ** The week summary and its ordering *)

Module Summary.

(** One row of [data.summary]. The numeric fields are finite numbers,
    modelled as rationals. *)
Record weekSummary : Type := WeekSummary {
  team : string;
  win_prob : Q;
  popularity : Q;
  future_value : Q;
  expected_value : Q
}.

(** The comparator of [fetchSummary]:
    [(a, b) => b.expected_value - a.expected_value]. *)
Definition byExpectedValue (a b : weekSummary) : Q :=
  (expected_value b - expected_value a)%Q.

(** [Array.prototype.sort(cmp)]: a stable sort; [a] stays before [b]
    unless [cmp(a, b) > 0]. *)
Fixpoint insertBy {A} (cmp : A → A → Q) (x : A) (l : list A) : list A :=
  match l with
  | [] => [x]
  | y :: l' =>
      if Qlt_le_dec 0 (cmp x y) then y :: insertBy cmp x l' else x :: l
  end.

Definition sortBy {A} (cmp : A → A → Q) (l : list A) : list A :=
  fold_right (insertBy cmp) [] l.

(** [sorted] of [fetchSummary], the value given to [setSummaryData]. *)
Definition sortSummary (summary : list weekSummary) : list weekSummary :=
  sortBy byExpectedValue summary.

(** [topPicks]: [sorted.slice(0, 2)]. *)
Definition topPicks (summary : list weekSummary) : list weekSummary :=
  take 2 (sortSummary summary).

(** The order the ranking contract asks for between two adjacent rows:
    expected value descending, then win probability descending, then
    team name ascending. *)
Definition rankedBefore (a b : weekSummary) : Prop :=
  (expected_value b < expected_value a)%Q
  ∨ (expected_value a == expected_value b ∧ win_prob b < win_prob a)%Q
  ∨ (expected_value a == expected_value b ∧ win_prob a == win_prob b)%Q
    ∧ String.leb (team a) (team b) = true.

(** What the comparator does give: expected value does not increase. *)
Definition evDescending (a b : weekSummary) : Prop :=
  (expected_value b <= expected_value a)%Q.

(** Rows whose expected value is [k]. *)
Definition tied (k : Q) (x : weekSummary) : Prop :=
  Qeq_bool (expected_value x) k = true.

#[global] Instance tied_dec k x : Decision (tied k x).
Proof. unfold tied. apply _. Defined.

(** Two rows with the same expected value. *)
Definition rowA : weekSummary := WeekSummary "A" (1 # 2) 0 0 1.
Definition rowB : weekSummary := WeekSummary "B" (3 # 5) 0 0 1.

End Summary.

(** ** The pool controls: week and entry count *)

Module Controls.

(** [onChange] of the week input: the value given to [setWeek]. *)
Definition weekOnChange (value : string) : jsnum :=
  let val := parseInt value None in
  let val := if gt val (Num 18) then Num 18 else val in
  let val := if lt val (Num 1) then Num 1 else val in
  val.

(** [onChange] of the week input in the earlier version of the
    component ([frontend/src/SurvivorUI.jsx]). *)
Definition weekOnChange_v1 (value : string) : jsnum :=
  parseInt value None.


(** [picks.slice(0, n)] for an integer [n]: a negative [n] counts from
    the end. *)
Definition sliceTo {A} (l : list A) (n : Z) : list A :=
  if bool_decide (n < 0)%Z
  then take (length l - Z.to_nat (- n)) l
  else take (Z.to_nat n) l.

(** The effect that runs when [entries] changes: the fetched picks are
    padded with empty entries or cut to [entries] rows. [maxLen] is the
    longest array the JavaScript engine builds: the language allows
    2^32 - 1 elements at most and engines stop earlier. [None] is the
    RangeError of [Array(k)] for a length of 2^32 or more, or of building
    an array longer than [maxLen]. *)
Definition resizePicks (maxLen : Z) (entries : jsnum)
    (picks : list (list jsval)) : option (list (list jsval)) :=
  let len := Num (Z.of_nat (length picks)) in
  if lt len entries then
    match entries with
    | Num n =>
        let k := (n - Z.of_nat (length picks))%Z in
        if bool_decide (k < 2 ^ 32 ∧ n ≤ maxLen)%Z
        then Some (picks ++ replicate (Z.to_nat k) [])
        else None
    | NaN => Some picks
    end
  else if gt len entries then
    match entries with
    | Num n => Some (sliceTo picks n)
    | NaN => Some picks
    end
  else Some picks.

End Controls.

(** ** Colour interpolation *)

Module Color.

(** [s.replace('#', '')]: the first [#] is removed. *)
Fixpoint removeHash (s : string) : string :=
  match s with
  | EmptyString => EmptyString
  | String c s' => if Ascii.eqb c "#" then s' else String c (removeHash s')
  end.

(** [s.substring(i, j)] for [i <= j]. *)
Definition substring (s : string) (i j : nat) : string :=
  String.substring i (j - i) s.

(** [Math.round(a + (b - a) * t)]: [None] is [NaN]. The weight [t] is a
    finite number, modelled as a rational; at [t = 0] and [t = 1] the
    double-precision result is the exact one. *)
Definition mix (a b : jsnum) (t : Q) : option Z :=
  match a, b with
  | Num x, Num y =>
      Some (Qfloor (inject_Z x + (inject_Z y - inject_Z x) * t + (1 # 2))%Q)
  | _, _ => None
  end.

(** ToInt32: [NaN] becomes 0, integers wrap to 32 signed bits. *)
Definition toInt32 (x : option Z) : Z :=
  match x with
  | None => 0
  | Some z => ((z + 2 ^ 31) mod 2 ^ 32 - 2 ^ 31)%Z
  end.

(** [x << k] for [0 <= k < 32]. *)
Definition shl (x : option Z) (k : Z) : Z :=
  toInt32 (Some (Z.shiftl (toInt32 x) k)).

(** [a + b] on numbers: [NaN] is absorbing. *)
Definition add (a b : option Z) : option Z :=
  x ← a; y ← b; Some (x + y)%Z.

Definition hexDigit (d : Z) : ascii :=
  if bool_decide (d < 10)%Z
  then ascii_of_nat (Z.to_nat (48 + d))
  else ascii_of_nat (Z.to_nat (87 + d)).

(** The hexadecimal digits of [n >= 0], most significant first, in front
    of [acc]; [fuel] bounds the number of digits. *)
Fixpoint hexDigits (fuel : nat) (n : Z) (acc : string) : string :=
  match fuel with
  | O => acc
  | S fuel' =>
      let acc' := String (hexDigit (n mod 16)) acc in
      if bool_decide (n < 16)%Z then acc'
      else hexDigits fuel' (n / 16) acc'
  end.

(** [n.toString(16)] for an integer or [NaN]. *)
Definition toString16 (x : option Z) : string :=
  match x with
  | None => "NaN"
  | Some n =>
      if bool_decide (n < 0)%Z
      then String "-" (hexDigits (S (Z.to_nat (Z.log2 (- n)))) (- n) "")
      else hexDigits (S (Z.to_nat (Z.log2 n))) n ""
  end.

(** [s.slice(1)]. *)
Definition slice1 (s : string) : string :=
  match s with
  | EmptyString => EmptyString
  | String _ s' => s'
  end.

Definition interpolateColor (a b : string) (t : Q) : string :=
  let ah := removeHash a in
  let bh := removeHash b in
  let ar := parseInt (substring ah 0 2) (Some 16%Z) in
  let ag := parseInt (substring ah 2 4) (Some 16%Z) in
  let ab := parseInt (substring ah 4 6) (Some 16%Z) in
  let br := parseInt (substring bh 0 2) (Some 16%Z) in
  let bg := parseInt (substring bh 2 4) (Some 16%Z) in
  let bb := parseInt (substring bh 4 6) (Some 16%Z) in
  let rr := mix ar br t in
  let rg := mix ag bg t in
  let rb := mix ab bb t in
  let n := add (add (add (Some (shl (Some 1%Z) 24)) (Some (shl rr 16)))
                    (Some (shl rg 8))) rb in
  String "#" (slice1 (toString16 n)).

(** A colour literal as the component writes them: [#] followed by six
    lower-case hexadecimal digits. *)
Definition lowerHex (c : ascii) : bool :=
  let n := nat_of_ascii c in
  bool_decide (48 ≤ n ≤ 57 ∨ 97 ≤ n ≤ 102)%nat.

Definition isColor (s : string) : Prop :=
  ∃ c1 c2 c3 c4 c5 c6,
    s = String "#" (String c1 (String c2 (String c3
          (String c4 (String c5 (String c6 EmptyString))))))
    ∧ lowerHex c1 = true ∧ lowerHex c2 = true ∧ lowerHex c3 = true
    ∧ lowerHex c4 = true ∧ lowerHex c5 = true ∧ lowerHex c6 = true.

(** The number written by two hexadecimal digits, and the two digits of
    a number below 256. *)
Definition hexByte (c1 c2 : ascii) : Z :=
  (default 0 (digitValue c1) * 16 + default 0 (digitValue c2))%Z.

Definition hex2 (v : Z) (acc : string) : string :=
  String (hexDigit (v / 16)) (String (hexDigit (v mod 16)) acc).

End Color.

(** ** The rating store and its Elo update

    The rating store lives in the Python back end, which is not part of
    the front-end sources; it is modelled from its specification, over
    the real numbers. *)

Module RatingStore.

(** Modelled from the spec: the error kinds of the core (section 7);
    the back end that raises them is missing. *)
Inductive error : Type :=
| UnknownTeam (t : string)
| MissingGame
| InsufficientTeams
| InvalidWeek
| InvalidEntryCount.

(** Modelled from the spec: a completed game of [results], with its week
    and outcome; the back end's own record is missing. *)
Record result : Type := Result {
  rweek : Z;
  winner : string;
  loser : string
}.

(** Modelled from the spec: the rating store, "per-team power ratings"
    together with "the highest week already applied"; the back end's
    store is missing. *)
Record store : Type := Store {
  ratings : gmap string R;
  applied : Z
}.

Section Elo.

(** The update factor [K] and the scale [S] of the logistic transform
    (400 by the Elo convention) are named constants of the back end. *)
Variables (K S : R).

(** Modelled from the spec: the logistic transform of section 4.3,
    [1 / (1 + 10^(-(ra - rb) / S))]; the back end's function is
    missing. *)
Definition expected_outcome (ra rb : R) : R :=
  (1 / (1 + Rpower 10 (- (ra - rb) / S)))%R.

(** Modelled from the spec: a rating moves by
    [K * (actual_outcome - expected_outcome)], the actual outcome being
    1 for the winner and 0 for the loser. *)
Definition delta (actual ra rb : R) : R :=
  (K * (actual - expected_outcome ra rb))%R.

(** Modelled from the spec: [get_rating], failing with [UnknownTeam]. *)
Definition get_rating (m : gmap string R) (t : string) : error + R :=
  match m !! t with
  | Some r => inr r
  | None => inl (UnknownTeam t)
  end.

(** Modelled from the spec: one adjustment per game of [results] whose
    week is at most [wk] and above [hi], the highest week already
    applied; games are taken in order. The second component lists the
    rating deltas applied, one per team and game. *)
Fixpoint apply_results (hi wk : Z) (results : list result)
    (m : gmap string R) : error + (gmap string R * list (string * R)) :=
  match results with
  | [] => inr (m, [])
  | g :: rest =>
      if bool_decide (hi < rweek g ∧ rweek g ≤ wk)%Z then
        match get_rating m (winner g), get_rating m (loser g) with
        | inr rw, inr rl =>
            let dw := delta 1 rw rl in
            let dl := delta 0 rl rw in
            let m' := <[loser g := (rl + dl)%R]>
                        (<[winner g := (rw + dw)%R]> m) in
            match apply_results hi wk rest m' with
            | inr (m'', log) =>
                inr (m'', (winner g, dw) :: (loser g, dl) :: log)
            | inl e => inl e
            end
        | inl e, _ => inl e
        | _, inl e => inl e
        end
      else apply_results hi wk rest m
  end.

(** Modelled from the spec: [update_through(week, results)]. *)
Definition update_through (wk : Z) (results : list result) (st : store)
    : error + (store * list (string * R)) :=
  match apply_results (applied st) wk results (ratings st) with
  | inr (m, log) => inr (Store m (Z.max (applied st) wk), log)
  | inl e => inl e
  end.

(** The sum of a list of applied deltas, and of those of one team. *)
Definition sum_deltas (log : list (string * R)) : R :=
  fold_right (λ d acc, (d.2 + acc)%R) 0%R log.

Definition team_delta (t : string) (log : list (string * R)) : R :=
  sum_deltas (filter (λ d, d.1 = t) log).

(** The sum of all the ratings of a store. *)
Definition total_rating (m : gmap string R) : R :=
  map_fold (λ _ r acc, (r + acc)%R) 0%R m.

End Elo.

(** A store with two rated teams, one result between them, and the store
    after that result has been applied with [K = 20] and [S = 400]. *)
Definition demoStore : store :=
  Store (<["B" := 1400%R]> (<["A" := 1600%R]> ∅)) 0.

Definition demoResults : list result := [Result 1 "A" "B"].

Definition demoLog : list (string * R) :=
  [("A", delta 20 400 1 1600 1400); ("B", delta 20 400 0 1400 1600)].

Definition demoStore' : store :=
  Store (<["B" := (1400 + delta 20 400 0 1400 1600)%R]>
           (<["A" := (1600 + delta 20 400 1 1600 1400)%R]>
              (ratings demoStore))) 1.

End RatingStore.

(** ** The summary table: column sorting and check boxes *)

Module Table.
Import Summary.

(** The columns whose header calls [handleSort], and the two values of
    [sortDirection]. *)
Inductive column : Type :=
| Team | WinProb | Popularity | ExpectedValue | FutureValue.

Inductive direction : Type := Asc | Desc.

#[global] Instance column_eq_dec : EqDecision column.
Proof. solve_decision. Defined.

#[global] Instance direction_eq_dec : EqDecision direction.
Proof. solve_decision. Defined.

(** The pair of states [sortColumn], [sortDirection]; the component
    starts with [expected_value], [desc]. *)
Record sortState : Type := SortState {
  sortColumn : column;
  sortDirection : direction
}.

Definition initialSort : sortState := SortState ExpectedValue Desc.

Definition handleSort (col : column) (st : sortState) : sortState :=
  if bool_decide (sortColumn st = col) then
    SortState (sortColumn st)
      (if bool_decide (sortDirection st = Asc) then Desc else Asc)
  else SortState col Desc.

(** [String.prototype.toLowerCase] on code units below 256: A-Z and the
    accented capitals (all of 192..222 but the multiplication sign). *)
Definition lowerChar (c : ascii) : ascii :=
  let n := nat_of_ascii c in
  if bool_decide (65 ≤ n ≤ 90 ∨ 192 ≤ n ≤ 214 ∨ 216 ≤ n ≤ 222)%nat
  then ascii_of_nat (n + 32) else c.

Fixpoint toLowerCase (s : string) : string :=
  match s with
  | EmptyString => EmptyString
  | String c s' => String (lowerChar c) (toLowerCase s')
  end.

(** The outcome of the two tests [aVal < bVal] and [aVal > bVal] of the
    comparator. *)
Definition ordered (dir : direction) (less greater : bool) : Q :=
  if less then (if bool_decide (dir = Asc) then (-1)%Q else 1%Q)
  else if greater then (if bool_decide (dir = Asc) then 1%Q else (-1)%Q)
  else 0%Q.

Definition numLt (x y : Q) : bool :=
  if Qlt_le_dec x y then true else false.

(** The comparator of [sortedSummaryData]: [a[sortColumn]] against
    [b[sortColumn]], strings lower-cased first. *)
Definition compareRows (col : column) (dir : direction)
    (a b : weekSummary) : Q :=
  match col with
  | Team =>
      let aVal := toLowerCase (team a) in
      let bVal := toLowerCase (team b) in
      ordered dir (String.ltb aVal bVal) (String.ltb bVal aVal)
  | WinProb =>
      ordered dir (numLt (win_prob a) (win_prob b))
                  (numLt (win_prob b) (win_prob a))
  | Popularity =>
      ordered dir (numLt (popularity a) (popularity b))
                  (numLt (popularity b) (popularity a))
  | ExpectedValue =>
      ordered dir (numLt (expected_value a) (expected_value b))
                  (numLt (expected_value b) (expected_value a))
  | FutureValue =>
      ordered dir (numLt (future_value a) (future_value b))
                  (numLt (future_value b) (future_value a))
  end.

Definition sortedSummaryData (st : sortState)
    (summaryData : list weekSummary) : list weekSummary :=
  sortBy (compareRows (sortColumn st) (sortDirection st)) summaryData.

(** The order of the rows on a column: lower-cased names by code units,
    numbers by value. *)
Definition keyLe (col : column) (a b : weekSummary) : Prop :=
  match col with
  | Team => String.leb (toLowerCase (team a)) (toLowerCase (team b)) = true
  | WinProb => (win_prob a <= win_prob b)%Q
  | Popularity => (popularity a <= popularity b)%Q
  | ExpectedValue => (expected_value a <= expected_value b)%Q
  | FutureValue => (future_value a <= future_value b)%Q
  end.

(** The order the table is shown in. *)
Definition shownBefore (st : sortState) (a b : weekSummary) : Prop :=
  match sortDirection st with
  | Asc => keyLe (sortColumn st) a b
  | Desc => keyLe (sortColumn st) b a
  end.

(** [a >= b] on numbers: false when either is [NaN]. *)
Definition ge (a b : jsnum) : bool :=
  match a, b with
  | Num x, Num y => bool_decide (y ≤ x)%Z
  | _, _ => false
  end.

(** The [disabled] attribute of the check box of [team]. *)
Definition checkboxDisabled (entries : jsnum) (selectedTeams : list string)
    (team : string) : bool :=
  negb (bool_decide (team ∈ selectedTeams))
  && ge (Num (Z.of_nat (length selectedTeams))) entries.

End Table.

(** ** Teams for a dropdown, from the entry-major pick table *)

Module Dropdown.
Import Schedule.

(** [new Set(array)]: the elements in order of first occurrence. *)
Definition setOf {A} `{EqDecision A} (l : list A) : list A :=
  fold_left setAdd l [].

(** [getAvailableTeams(entryIdx, weekIdx)]; [summaryData] is read
    through [.week], [.home] and [.away] only, and [editPicks] is indexed
    by entry first. A missing entry row gives the empty set. *)
Definition getAvailableTeams (summaryData : list game)
    (editPicks : Picks.table) (entryIdx weekIdx : nat) : list string :=
  let teamsThisWeek := getTeamsForWeek summaryData weekIdx in
  let alreadyPicked :=
    match editPicks !! entryIdx with
    | Some r => setOf (filter (λ v, truthy v = true) (take weekIdx r))
    | None => []
    end in
  filter (λ team, JStr team ∉ alreadyPicked) teamsThisWeek.

End Dropdown.

(** ** Colours in double arithmetic *)

Module FutureColor.
Import Color.

(** The blue channel [interpolateColor] reads from a colour string. *)
Definition blueChannel (s : string) : jsnum :=
  parseInt (substring (removeHash s) 4 6) (Some 16%Z).

End FutureColor.

Module Doubles.
Import Color.

Section Rounding.

(** [fl x] is the double that an arithmetic operation returns when its
    exact result is [x] (rounding to nearest). A finite double is itself
    a rational, so the values stay in [Q]. *)
Variable fl : Q → Q.

(** [Math.round(a + (b - a) * t)] with each of the three operations
    rounded; [Math.round] itself is exact on a double. *)
Definition mix (a b : jsnum) (t : Q) : option Z :=
  match a, b with
  | Num x, Num y =>
      let d := fl (inject_Z y - inject_Z x) in
      let p := fl (d * t) in
      let s := fl (inject_Z x + p) in
      Some (Qfloor (s + (1 # 2)))
  | _, _ => None
  end.

Definition interpolateColor (a b : string) (t : Q) : string :=
  let ah := removeHash a in
  let bh := removeHash b in
  let ar := parseInt (substring ah 0 2) (Some 16%Z) in
  let ag := parseInt (substring ah 2 4) (Some 16%Z) in
  let ab := parseInt (substring ah 4 6) (Some 16%Z) in
  let br := parseInt (substring bh 0 2) (Some 16%Z) in
  let bg := parseInt (substring bh 2 4) (Some 16%Z) in
  let bb := parseInt (substring bh 4 6) (Some 16%Z) in
  let rr := mix ar br t in
  let rg := mix ag bg t in
  let rb := mix ab bb t in
  let n := add (add (add (Some (shl (Some 1%Z) 24)) (Some (shl rr 16)))
                    (Some (shl rg 8))) rb in
  String "#" (slice1 (toString16 n)).

(** [getFutureValueColor]; [None] is [null] or [undefined], a number is
    a finite double. *)
Definition getFutureValueColor (futureValue : option Q) : string :=
  match futureValue with
  | None => "#a78bfa"
  | Some fv =>
      if Qle_bool fv 4 then "#f87171"
      else if Qle_bool 10 fv then "#60a5fa"
      else if Qlt_le_dec fv 6 then
        let t := fl (fl (fv - 4) / 2) in
        interpolateColor "#f87171" "#a78bfa" t
      else
        let t := fl (fl (fv - 6) / 4) in
        interpolateColor "#a78bfa" "#60a5fa" t
  end.

End Rounding.

(** What the proofs use of rounding to nearest: it keeps the order, and
    it leaves the integers from -255 to 255 as they are. *)
Definition monotone (fl : Q → Q) : Prop :=
  ∀ x y, (x <= y)%Q → (fl x <= fl y)%Q.

Definition keepsIntegers (fl : Q → Q) : Prop :=
  ∀ z, (-255 ≤ z ≤ 255)%Z → (fl (inject_Z z) == inject_Z z)%Q.

End Doubles.

(** * Properties *)

Local Open Scope nat_scope.

(** ** Reading and writing array slots *)

Module JSFacts.

Lemma get_set_eq arr i v : get (set arr i v) i = v.
Proof.
  unfold get, set. case_decide as Hi.
  - by rewrite list_lookup_insert_eq.
  - rewrite lookup_app_r by lia.
    rewrite lookup_app_r by (rewrite length_replicate; lia).
    rewrite length_replicate.
    by replace (i - length arr - (i - length arr)) with 0 by lia.
Qed.

Lemma get_set_ne arr i j v : i ≠ j → get (set arr i v) j = get arr j.
Proof.
  intros Hne. unfold get, set. case_decide as Hi.
  - by rewrite list_lookup_insert_ne.
  - destruct (decide (j < length arr)) as [Hj|Hj].
    + by rewrite lookup_app_l.
    + rewrite (lookup_ge_None_2 arr j) by lia.
      rewrite lookup_app_r by lia.
      destruct (decide (j < i)) as [Hji|Hji].
      * rewrite lookup_app_l by (rewrite length_replicate; lia).
        rewrite lookup_replicate_2 by lia. done.
      * rewrite lookup_ge_None_2; [done|].
        rewrite length_app, length_replicate. simpl. lia.
Qed.

Lemma truthy_JStr v : truthy v = true → ∃ s, v = JStr s ∧ s ≠ "".
Proof.
  destruct v as [| |s]; simpl; try discriminate.
  intros H. exists s. split; [done|].
  intros ->. discriminate.
Qed.

Lemma JStr_truthy s : s ≠ "" → truthy (JStr s) = true.
Proof.
  intros Hs. simpl. destruct (String.eqb_spec s ""); [done|done].
Qed.

Lemma strict_eq_true a b : strict_eq a b = true ↔ a = b.
Proof. unfold strict_eq. apply bool_decide_eq_true. Qed.

End JSFacts.

(** ** Pick edits *)

Module PicksFacts.
Import Picks JSFacts.

(** Closes a goal whose context refutes one of its own negated
    conjunctions. *)
Ltac refute_guard :=
  exfalso;
  match goal with
  | H : ¬ (_ ∧ _) |- _ =>
      apply H; repeat split; (lia || done || congruence)
  end.

Ltac guard_cases :=
  repeat case_decide; try done; destruct_and?; subst;
  try lia; try congruence; try refute_guard.

(** One iteration of the loop of [handlePickChange]. *)
Lemma cell_clear_step (updated : table) w e team w' e' :
  cell (match updated !! w with
        | Some r =>
            if strict_eq (get r e) team
            then <[w := set r e JNull]> updated
            else updated
        | None => updated
        end) w' e'
  = if decide (w' = w ∧ e' = e ∧ cell updated w e = Some team)
    then Some JNull else cell updated w' e'.
Proof.
  unfold cell. destruct (updated !! w) as [r|] eqn:Hr; simpl.
  - destruct (strict_eq (get r e) team) eqn:Heq.
    + apply strict_eq_true in Heq.
      destruct (decide (w' = w)) as [->|Hw].
      * rewrite list_lookup_insert_eq by (by eapply lookup_lt_Some).
        rewrite Hr. simpl.
        destruct (decide (e' = e)) as [->|He].
        -- rewrite get_set_eq. rewrite decide_True; [done|]. by rewrite Heq.
        -- rewrite get_set_ne by done. rewrite decide_False; [done|]. tauto.
      * rewrite list_lookup_insert_ne by done.
        rewrite decide_False; [done|]. tauto.
    + rewrite decide_False; [done|].
      intros (_ & _ & [=]). subst team.
      unfold strict_eq in Heq. by rewrite bool_decide_eq_false in Heq.
  - rewrite decide_False; [done|]. intros (_ & _ & [=]).
Qed.

Lemma cell_clearLater n : ∀ w e team (updated : table) w' e',
  cell (clearLater n w e team updated) w' e'
  = if decide (w ≤ w' < w + n ∧ e' = e ∧ cell updated w' e = Some team)
    then Some JNull else cell updated w' e'.
Proof.
  induction n as [|n IH]; intros w e team updated w' e'.
  - simpl. rewrite decide_False; [done|]. lia.
  - simpl. rewrite IH. rewrite !cell_clear_step.
    destruct (decide (w' = w)) as [->|Hne]; guard_cases.
Qed.

Lemma length_clearLater n : ∀ w e team (updated : table),
  length (clearLater n w e team updated) = length updated.
Proof.
  induction n as [|n IH]; intros w e team updated; [done|].
  simpl. rewrite IH. destruct (updated !! w); [|done].
  destruct (strict_eq _ _); [|done]. by rewrite length_insert.
Qed.

Lemma handlePickChange_Some prev w e team :
  w < length prev → is_Some (handlePickChange prev w e team).
Proof.
  intros Hw. unfold handlePickChange.
  destruct (lookup_lt_is_Some_2 prev w Hw) as [r ->]. eauto.
Qed.

Lemma handlePickChange_None prev w e team :
  length prev ≤ w → handlePickChange prev w e team = None.
Proof.
  intros Hw. unfold handlePickChange. by rewrite lookup_ge_None_2.
Qed.

Lemma length_handlePickChange prev w e team updated :
  handlePickChange prev w e team = Some updated →
  length updated = length prev.
Proof.
  unfold handlePickChange. destruct (prev !! w); [|done].
  intros [= <-]. by rewrite length_clearLater, length_insert.
Qed.

(** Every cell of the table after [handlePickChange]. *)
Lemma cell_handlePickChange prev w e team updated w' e' :
  handlePickChange prev w e team = Some updated →
  cell updated w' e'
  = if decide (w' = w ∧ e' = e) then Some team
    else if decide (w < w' ∧ e' = e ∧ cell prev w' e = Some team)
         then Some JNull
         else cell prev w' e'.
Proof.
  unfold handlePickChange. destruct (prev !! w) as [r|] eqn:Hr; [|done].
  intros [= <-]. rewrite cell_clearLater.
  assert (Hlt : w < length prev) by (by eapply lookup_lt_Some).
  assert (Hc : ∀ w' e',
    cell (<[w := set r e team]> prev) w' e'
    = if decide (w' = w ∧ e' = e) then Some team
      else cell prev w' e').
  { intros v f. unfold cell. destruct (decide (v = w)) as [->|Hv].
    - rewrite list_lookup_insert_eq by done. rewrite Hr. simpl.
      destruct (decide (f = e)) as [->|Hf].
      + rewrite get_set_eq. by rewrite decide_True.
      + rewrite get_set_ne by done. rewrite decide_False; [done|tauto].
    - rewrite list_lookup_insert_ne by done.
      rewrite decide_False; [done|tauto]. }
  rewrite !Hc, length_insert.
  assert (Hnone : ∀ v, length prev ≤ v → cell prev v e = None).
  { intros v Hv. unfold cell. by rewrite lookup_ge_None_2. }
  destruct (decide (w' < length prev)) as [Hin|Hout].
  - destruct (decide (w' = w)) as [->|Hne]; guard_cases.
  - rewrite (Hnone w') by lia.
    assert (cell prev w' e' = None) as ->
      by (unfold cell; rewrite lookup_ge_None_2; [done|lia]).
    guard_cases.
Qed.

End PicksFacts.

(** ** Teams on offer and the no-reuse rule *)

Module ReuseFacts.
Import Picks Schedule JSFacts PicksFacts.

Lemma elem_of_setAdd {A} `{EqDecision A} (s : list A) x y :
  y ∈ setAdd s x ↔ y ∈ s ∨ y = x.
Proof.
  unfold setAdd. case_bool_decide as Hx.
  - split; [tauto|]. intros [?| ->]; done.
  - rewrite elem_of_app, list_elem_of_singleton. tauto.
Qed.

Lemma NoDup_setAdd {A} `{EqDecision A} (s : list A) x :
  NoDup s → NoDup (setAdd s x).
Proof.
  intros Hs. unfold setAdd. case_bool_decide as Hx; [done|].
  apply NoDup_app. split_and!; [done| |apply NoDup_singleton].
  intros y Hy ->%list_elem_of_singleton. done.
Qed.

(** The loop collecting earlier picks, from any starting set. *)
Lemma elem_of_alreadyPicked_loop (picks : table) e ws : ∀ acc v,
  v ∈ fold_left
        (λ acc w,
           match picks !! w with
           | Some r =>
               if truthy (get r e) then setAdd acc (get r e) else acc
           | None => acc
           end) ws acc
  ↔ v ∈ acc ∨ ∃ w, w ∈ ws ∧ cell picks w e = Some v ∧ truthy v = true.
Proof.
  induction ws as [|w ws IH]; intros acc v; simpl.
  - split; [tauto|]. intros [?|(w & Hw & _)]; [done|]. by inversion Hw.
  - rewrite IH. unfold cell. split.
    + intros [Hv|(w' & Hw' & Hc)].
      * destruct (picks !! w) as [r|] eqn:Hr; [|tauto].
        destruct (truthy (get r e)) eqn:Ht; [|tauto].
        apply elem_of_setAdd in Hv as [?| ->]; [tauto|].
        right. exists w. rewrite Hr. split; [left|done].
      * right. exists w'. split; [by right|done].
    + intros [Hv|(w' & Hw' & Hc & Ht)].
      * left. destruct (picks !! w) as [r|]; [|done].
        destruct (truthy (get r e)); [|done].
        apply elem_of_setAdd. tauto.
      * apply elem_of_cons in Hw' as [->|Hw'].
        -- left. destruct (picks !! w) as [r|]; [|done].
           simpl in Hc. injection Hc as <-. rewrite Ht.
           apply elem_of_setAdd. tauto.
        -- right. exists w'. done.
Qed.

Lemma elem_of_alreadyPicked (picks : table) w e v :
  v ∈ alreadyPicked picks w e
  ↔ ∃ w', w' < w ∧ cell picks w' e = Some v ∧ truthy v = true.
Proof.
  unfold alreadyPicked. rewrite elem_of_alreadyPicked_loop.
  split.
  - intros [Hv|(w' & Hw' & Hc)]; [by inversion Hv|].
    exists w'. apply elem_of_seq in Hw'. split; [lia|done].
  - intros (w' & Hw' & Hc). right. exists w'.
    split; [apply elem_of_seq; lia|done].
Qed.

(** A team on offer for entry [e] in week [w] is held by [e] in no
    earlier week. *)
Lemma available_not_held_before sched (picks : table) w e t :
  t ∈ getAvailableTeamsForEntryWeek sched picks w e →
  ∀ w', w' < w → ¬ holds picks w' e t.
Proof.
  unfold getAvailableTeamsForEntryWeek.
  intros [Hnot _]%list_elem_of_filter w' Hw' [Hc Hne].
  apply Hnot, elem_of_alreadyPicked.
  exists w'. split_and!; [done|done|by apply JStr_truthy].
Qed.

(** After [handlePickChange] puts [t] in week [w] of entry [e], no later
    week of [e] has [t]. *)
Lemma handlePickChange_clears_later (prev : table) w e t updated :
  handlePickChange prev w e (JStr t) = Some updated →
  ∀ w', w < w' → cell updated w' e ≠ Some (JStr t).
Proof.
  intros Hh w' Hw'. rewrite (cell_handlePickChange _ _ _ _ _ _ _ Hh).
  rewrite decide_False by lia.
  case_decide as Hc; [done|].
  intros Heq. apply Hc. done.
Qed.

(** Weeks before [w] are left as they were. *)
Lemma handlePickChange_keeps_earlier (prev : table) w e team updated :
  handlePickChange prev w e team = Some updated →
  ∀ w' e', w' < w → cell updated w' e' = cell prev w' e'.
Proof.
  intros Hh w' e' Hw'. rewrite (cell_handlePickChange _ _ _ _ _ _ _ Hh).
  rewrite decide_False by lia. rewrite decide_False by lia. done.
Qed.

(** Other entries are left as they were. *)
Lemma handlePickChange_keeps_others (prev : table) w e team updated :
  handlePickChange prev w e team = Some updated →
  ∀ w' e', e' ≠ e → cell updated w' e' = cell prev w' e'.
Proof.
  intros Hh w' e' He'. rewrite (cell_handlePickChange _ _ _ _ _ _ _ Hh).
  rewrite decide_False by tauto. rewrite decide_False by tauto. done.
Qed.

(** A later week of [e] holds a team after the edit only if it held it
    before. *)
Lemma holds_later_inv (prev : table) w e team updated w' s :
  handlePickChange prev w e team = Some updated →
  w' ≠ w → holds updated w' e s → holds prev w' e s.
Proof.
  intros Hh Hw' [Hc Hs]. split; [|done].
  rewrite (cell_handlePickChange _ _ _ _ _ _ _ Hh) in Hc.
  rewrite decide_False in Hc by tauto.
  case_decide; [done|done].
Qed.

(** C1, counterexample: with team A in week 0, assigning A to week 1 of
    the same entry leaves A in both weeks. *)
Lemma handlePickChange_reuse_counterexample :
  handlePickChange [[JStr "A"]; [JNull]] 1 0 (JStr "A")
    = Some [[JStr "A"]; [JStr "A"]]
  ∧ noReuse [[JStr "A"]; [JNull]] 0
  ∧ ¬ noReuse [[JStr "A"]; [JStr "A"]] 0.
Proof.
  split; [reflexivity|]. split.
  - intros w1 w2 t [H1 _] [H2 _].
    unfold cell, get in *.
    destruct w1 as [|[|w1]], w2 as [|[|w2]]; simpl in *;
      rewrite ?lookup_nil in *; simpl in *; congruence.
  - intros H. specialize (H 0 1 "A").
    assert (0 = 1) as [=]. apply H; split; done.
Qed.

(** One edit with a team on offer keeps the picks of its entry pairwise
    distinct. *)
Lemma handlePickChange_offered_step sched (prev : table) w e t updated :
  noReuse prev e →
  t ∈ getAvailableTeamsForEntryWeek sched prev w e →
  handlePickChange prev w e (JStr t) = Some updated →
  noReuse updated e.
Proof.
  intros Hprev Hav Hh.
  pose proof (available_not_held_before _ _ _ _ _ Hav) as Hbefore.
  pose proof (handlePickChange_clears_later _ _ _ _ _ Hh) as Hlater.
  assert (Hw : cell updated w e = Some (JStr t)).
  { rewrite (cell_handlePickChange _ _ _ _ _ _ _ Hh).
    by rewrite decide_True. }
  intros w1 w2 s H1 H2.
  destruct (decide (w1 = w)) as [->|Hw1], (decide (w2 = w)) as [->|Hw2].
  - done.
  - exfalso. destruct H1 as [H1 _]. rewrite Hw in H1. injection H1 as <-.
    destruct (decide (w < w2)) as [Hlt|Hge].
    + by apply (Hlater w2 Hlt), H2.
    + apply (Hbefore w2); [lia|]. by eapply holds_later_inv.
  - exfalso. destruct H2 as [H2 _]. rewrite Hw in H2. injection H2 as <-.
    destruct (decide (w < w1)) as [Hlt|Hge].
    + by apply (Hlater w1 Hlt), H1.
    + apply (Hbefore w1); [lia|]. by eapply holds_later_inv.
  - apply (Hprev w1 w2 s); by eapply holds_later_inv.
Qed.

(** An edit leaves the picks of every other entry pairwise distinct. *)
Lemma handlePickChange_other_noReuse (prev : table) w e team updated e' :
  e' ≠ e →
  handlePickChange prev w e team = Some updated →
  noReuse prev e' → noReuse updated e'.
Proof.
  intros He' Hh Hprev w1 w2 s [H1 Hs] [H2 _].
  rewrite (handlePickChange_keeps_others _ _ _ _ _ Hh) in H1, H2 by done.
  by apply (Hprev w1 w2 s).
Qed.

Lemma offeredEdits_noReuse sched (picks final : table) :
  offeredEdits sched picks final →
  (∀ e, noReuse picks e) → ∀ e, noReuse final e.
Proof.
  induction 1 as [|picks w e t updated final Hav Hh _ IH]; [done|].
  intros Hprev. apply IH. intros e'.
  destruct (decide (e' = e)) as [->|He'].
  - by eapply handlePickChange_offered_step.
  - by eapply handlePickChange_other_noReuse.
Qed.

(** C1, as amended: (1) starting from picks that are pairwise distinct
    within every entry, every sequence of edits that each assign a team
    [getAvailableTeamsForEntryWeek] offers leaves the picks of every
    entry pairwise distinct; (2) after [handlePickChange] assigns [t] to
    week [w] of entry [e], week [w] has [t] and no later week of [e] has
    [t]; (3) [getAvailableTeamsForEntryWeek] offers to [e] for week [w]
    no team that [e] holds in an earlier week. *)
Theorem handlePickChange_offered_noReuse :
  (∀ sched (picks final : table),
     (∀ e, noReuse picks e) → offeredEdits sched picks final →
     ∀ e, noReuse final e)
  ∧ (∀ (prev : table) w e t updated,
       handlePickChange prev w e (JStr t) = Some updated →
       cell updated w e = Some (JStr t)
       ∧ ∀ w', w < w' → cell updated w' e ≠ Some (JStr t))
  ∧ (∀ sched (picks : table) w e t,
       t ∈ getAvailableTeamsForEntryWeek sched picks w e →
       ∀ w', w' < w → ¬ holds picks w' e t).
Proof.
  split_and!.
  - intros sched picks final Hprev Hedits. by eapply offeredEdits_noReuse.
  - intros prev w e t updated Hh. split.
    + rewrite (cell_handlePickChange _ _ _ _ _ _ _ Hh).
      by rewrite decide_True.
    + by eapply handlePickChange_clears_later.
  - intros sched picks w e t. apply available_not_held_before.
Qed.

(** The theorem at work: B is on offer in week 2 for an entry that has A
    in week 1 and B in week 3; picking it moves B to week 2. *)
Lemma handlePickChange_offered_noReuse_witness :
  noReuse [[JStr "A"]; [JStr "B"]; [JNull]] 0.
Proof.
  refine (proj1 handlePickChange_offered_noReuse
            [Game 2 "B" "C"] [[JStr "A"]; [JNull]; [JStr "B"]] _ _ _ 0).
  - intros e w1 w2 t [H1 Ht] [H2 _]. unfold cell, get in *.
    destruct e as [|e];
      destruct w1 as [|[|[|w1]]], w2 as [|[|[|w2]]]; simpl in *;
      rewrite ?lookup_nil in *; simpl in *; congruence.
  - eapply (offered_step _ _ 1 0 "B").
    + vm_compute. left.
    + reflexivity.
    + apply offered_done.
Defined.

End ReuseFacts.

(** ** Selecting teams for the week *)

Module SelectionFacts.
Import Picks.

(** One toggle keeps the selection duplicate-free and within the number
    of entries. *)
Lemma handleCheckboxChange_invariant (n : Z) (prev : list string) team :
  NoDup prev → (Z.of_nat (length prev) ≤ n)%Z →
  NoDup (handleCheckboxChange (Num n) prev team)
  ∧ (Z.of_nat (length (handleCheckboxChange (Num n) prev team)) ≤ n)%Z.
Proof.
  intros Hnd Hlen. unfold handleCheckboxChange.
  case_bool_decide as Hin.
  - split; [by apply NoDup_filter|].
    pose proof (length_filter (λ t, t ≠ team) prev). lia.
  - unfold lt. case_bool_decide as Hlt.
    + split.
      * apply NoDup_app. split_and!; [done| |apply NoDup_singleton].
        intros y Hy ->%list_elem_of_singleton. done.
      * rewrite length_app. simpl. lia.
    + done.
Qed.

(** C7: starting from a duplicate-free selection no longer than the
    number of entries (the empty selection the component starts with and
    resets to, for any entry count from 0 up), every sequence of checkbox
    toggles leaves a selection without a duplicate team and with at most
    as many teams as there are entries. *)
Theorem handleCheckboxChange_toggles (n : Z) (toggles prev : list string) :
  NoDup prev → (Z.of_nat (length prev) ≤ n)%Z →
  let selected := fold_left (handleCheckboxChange (Num n)) toggles prev in
  NoDup selected ∧ (Z.of_nat (length selected) ≤ n)%Z.
Proof.
  revert prev. induction toggles as [|team toggles IH]; intros prev Hnd Hlen.
  - done.
  - simpl.
    destruct (handleCheckboxChange_invariant n prev team Hnd Hlen) as [H1 H2].
    apply (IH _ H1 H2).
Qed.

Lemma handleCheckboxChange_toggles_witness :
  let selected :=
    fold_left (handleCheckboxChange (Num 2)) ["A"; "B"; "C"; "A"; "C"] [] in
  NoDup selected ∧ (Z.of_nat (length selected) ≤ 2)%Z.
Proof.
  apply (handleCheckboxChange_toggles 2 ["A"; "B"; "C"; "A"; "C"] []).
  - apply NoDup_nil_2.
  - simpl. lia.
Defined.

End SelectionFacts.

(** ** Transposing the pick table *)

Module TransposeFacts.
Import Picks.

Lemma transposePicks_unfold (a : table) (r0 : row) :
  a !! 0 = Some r0 →
  transposePicks (Some a)
  = map (λ entry,
           map (λ week, orEmpty (get (default [] (a !! week)) entry))
               (seq 0 (length a)))
        (seq 0 (length r0)).
Proof.
  intros H0. unfold transposePicks.
  rewrite bool_decide_eq_false_2.
  - by rewrite H0.
  - intros Hlen. apply length_zero_iff_nil in Hlen. by subst a.
Qed.

(** C8: for a non-empty rectangular week-by-entry table, the result has
    one row per entry of the first week row, every row has one cell per
    week, and cell [w] of row [e] is the input's cell [e] of week [w] when
    that is truthy and the empty string otherwise. *)
Theorem transposePicks_spec (a : table) (r0 : row) :
  a !! 0 = Some r0 →
  (∀ r, r ∈ a → length r = length r0) →
  length (transposePicks (Some a)) = length r0
  ∧ (∀ e out, transposePicks (Some a) !! e = Some out →
       length out = length a)
  ∧ (∀ w e r v, a !! w = Some r → r !! e = Some v →
       ∃ out, transposePicks (Some a) !! e = Some out
              ∧ out !! w = Some (if truthy v then v else JStr "")).
Proof.
  intros H0 Hrect. rewrite (transposePicks_unfold a r0 H0).
  split_and!.
  - by rewrite length_map, length_seq.
  - intros e out Hout. apply list_lookup_fmap_Some in Hout
      as (e' & -> & _). by rewrite length_map, length_seq.
  - intros w e r v Hr Hv.
    assert (He : e < length r0).
    { rewrite <- (Hrect r) by (by eapply list_elem_of_lookup_2).
      by eapply lookup_lt_Some. }
    assert (Hw : w < length a) by (by eapply lookup_lt_Some).
    eexists. split.
    + rewrite list_lookup_fmap, lookup_seq_lt by done. reflexivity.
    + rewrite list_lookup_fmap, lookup_seq_lt by done. simpl.
      rewrite Hr. simpl. unfold get. rewrite Hv. reflexivity.
Qed.

Lemma transposePicks_spec_witness :
  let a := [[JStr "A"; JNull]; [JStr "B"; JStr "C"]; [JStr ""; JStr "D"]] in
  length (transposePicks (Some a)) = 2
  ∧ (∀ e out, transposePicks (Some a) !! e = Some out → length out = 3)
  ∧ (∀ w e r v, a !! w = Some r → r !! e = Some v →
       ∃ out, transposePicks (Some a) !! e = Some out
              ∧ out !! w = Some (if truthy v then v else JStr "")).
Proof.
  intros a. apply (transposePicks_spec a [JStr "A"; JNull]).
  - reflexivity.
  - intros r Hr. repeat (apply elem_of_cons in Hr as [->|Hr]; [done|]).
    by inversion Hr.
Defined.

End TransposeFacts.

(** ** The teams of a week *)

Module ScheduleFacts.
Import Schedule ReuseFacts.

Lemma insertSorted_Permutation x l : Permutation (insertSorted x l) (x :: l).
Proof.
  induction l as [|y l IH]; simpl; [done|].
  destruct (String.leb x y); [done|].
  rewrite IH. apply perm_swap.
Qed.

Lemma sortStrings_Permutation l : Permutation (sortStrings l) l.
Proof.
  induction l as [|x l IH]; simpl; [done|].
  rewrite insertSorted_Permutation. by constructor.
Qed.

Lemma leS_total a b : leS a b ∨ leS b a.
Proof. apply String.leb_total. Qed.

Lemma leS_ne_ltS a b : leS a b → a ≠ b → ltS a b.
Proof.
  unfold leS, ltS, String.leb, String.ltb.
  destruct (String.compare a b) eqn:Hc; try done.
  apply String.compare_eq_iff in Hc. done.
Qed.

Lemma insertSorted_Sorted x l : Sorted leS l → Sorted leS (insertSorted x l).
Proof.
  induction 1 as [|y l Hs IH Hhd]; simpl.
  - repeat constructor.
  - destruct (String.leb x y) eqn:Hxy.
    + constructor; [by constructor|]. by constructor.
    + constructor; [done|].
      assert (Hyx : leS y x).
      { destruct (leS_total x y) as [H|H]; [|done].
        unfold leS in H. congruence. }
      destruct l as [|z l]; simpl.
      * by constructor.
      * destruct (String.leb x z); constructor; [done|].
        by inversion Hhd.
Qed.

Lemma sortStrings_Sorted l : Sorted leS (sortStrings l).
Proof.
  induction l as [|x l IH]; simpl; [constructor|].
  by apply insertSorted_Sorted.
Qed.

(** A sorted list without duplicates is strictly ascending. *)
Lemma Sorted_NoDup_strict l : Sorted leS l → NoDup l → Sorted ltS l.
Proof.
  induction 1 as [|x l Hs IH Hhd]; intros Hnd; [constructor|].
  apply NoDup_cons in Hnd as [Hx Hnd].
  constructor; [by apply IH|].
  destruct Hhd as [|y l Hxy]; constructor.
  apply leS_ne_ltS; [done|].
  intros ->. apply Hx. left.
Qed.

Lemma collectTeams_loop week_ sched : ∀ acc,
  let out :=
    fold_left
      (λ teams g,
         if bool_decide (week g = week_)
         then setAdd (setAdd teams (home g)) (away g)
         else teams) sched acc in
  (NoDup acc → NoDup out)
  ∧ ∀ t, t ∈ out ↔
      t ∈ acc ∨ ∃ g, g ∈ sched ∧ week g = week_ ∧ (t = home g ∨ t = away g).
Proof.
  induction sched as [|g sched IH]; intros acc; simpl.
  - split; [done|]. intros t. split; [tauto|].
    intros [?|(g & Hg & _)]; [done|]. by inversion Hg.
  - destruct (IH (if bool_decide (week g = week_)
                  then setAdd (setAdd acc (home g)) (away g)
                  else acc)) as [IHnd IHin].
    split.
    + intros Hnd. apply IHnd. case_bool_decide; [|done].
      by do 2 apply NoDup_setAdd.
    + intros t. rewrite IHin. split.
      * intros [Ht|(g' & Hg' & Hw & Ht)].
        -- case_bool_decide as Hw; [|tauto].
           apply elem_of_setAdd in Ht as [Ht| ->].
           ++ apply elem_of_setAdd in Ht as [Ht| ->]; [tauto|].
              right. exists g. split_and!; [left|done|tauto].
           ++ right. exists g. split_and!; [left|done|tauto].
        -- right. exists g'. split_and!; [by right|done|done].
      * intros [Ht|(g' & Hg' & Hw & Ht)].
        -- left. case_bool_decide; [|done].
           apply elem_of_setAdd. left. apply elem_of_setAdd. tauto.
        -- apply elem_of_cons in Hg' as [->|Hg'].
           ++ left. rewrite bool_decide_eq_true_2 by done.
              rewrite !elem_of_setAdd. tauto.
           ++ right. exists g'. done.
Qed.

Lemma NoDup_collectTeams sched wk : NoDup (collectTeams sched wk).
Proof. apply (collectTeams_loop wk sched []). constructor. Qed.

Lemma elem_of_collectTeams sched wk t :
  t ∈ collectTeams sched wk
  ↔ ∃ g, g ∈ sched ∧ week g = wk ∧ (t = home g ∨ t = away g).
Proof.
  unfold collectTeams.
  destruct (collectTeams_loop wk sched []) as [_ H]. rewrite H.
  split; [|tauto]. intros [Ht|?]; [by inversion Ht|done].
Qed.

(** C9: [getTeamsForWeek] returns a list without duplicates, in
    ascending string order (strictly ascending between neighbours), whose
    members are exactly the home and away teams of the games whose week
    is the index plus one. *)
Theorem getTeamsForWeek_spec sched weekIdx :
  NoDup (getTeamsForWeek sched weekIdx)
  ∧ Sorted leS (getTeamsForWeek sched weekIdx)
  ∧ Sorted ltS (getTeamsForWeek sched weekIdx)
  ∧ ∀ t, t ∈ getTeamsForWeek sched weekIdx
      ↔ ∃ g, g ∈ sched ∧ week g = (Z.of_nat weekIdx + 1)%Z
             ∧ (t = home g ∨ t = away g).
Proof.
  unfold getTeamsForWeek.
  assert (Hnd : NoDup (sortStrings (collectTeams sched (Z.of_nat weekIdx + 1)))).
  { rewrite sortStrings_Permutation. apply NoDup_collectTeams. }
  split_and!.
  - done.
  - apply sortStrings_Sorted.
  - apply Sorted_NoDup_strict; [apply sortStrings_Sorted|done].
  - intros t. rewrite sortStrings_Permutation. apply elem_of_collectTeams.
Qed.

End ScheduleFacts.

(** ** Ordering the week summary *)

Module SummaryFacts.
Import Summary.

Lemma insertBy_Permutation {A} (cmp : A → A → Q) x l :
  Permutation (insertBy cmp x l) (x :: l).
Proof.
  induction l as [|y l IH]; simpl; [done|].
  destruct (Qlt_le_dec 0 (cmp x y)); [|done].
  rewrite IH. apply perm_swap.
Qed.

Lemma sortBy_Permutation {A} (cmp : A → A → Q) l :
  Permutation (sortBy cmp l) l.
Proof.
  induction l as [|x l IH]; simpl; [done|].
  rewrite insertBy_Permutation. by constructor.
Qed.

Lemma insertBy_evDescending x l :
  Sorted evDescending l → Sorted evDescending (insertBy byExpectedValue x l).
Proof.
  induction 1 as [|y l Hs IH Hhd]; simpl.
  - repeat constructor.
  - unfold byExpectedValue at 1.
    destruct (Qlt_le_dec 0 (expected_value y - expected_value x)) as [Hlt|Hle].
    + constructor; [done|].
      destruct l as [|z l]; simpl.
      * constructor. unfold evDescending. lra.
      * unfold byExpectedValue at 1.
        destruct (Qlt_le_dec 0 (expected_value z - expected_value x)).
        -- constructor. by inversion Hhd.
        -- constructor. unfold evDescending. lra.
    + constructor; [by constructor|].
      constructor. unfold evDescending. lra.
Qed.

Lemma sortSummary_evDescending l : Sorted evDescending (sortSummary l).
Proof.
  induction l as [|x l IH]; simpl; [constructor|].
  by apply insertBy_evDescending.
Qed.

Lemma insertBy_tied k x l :
  filter (tied k) (insertBy byExpectedValue x l) = filter (tied k) (x :: l).
Proof.
  induction l as [|y l IH]; simpl; [done|].
  unfold byExpectedValue at 1.
  destruct (Qlt_le_dec 0 (expected_value y - expected_value x)) as [Hlt|Hle];
    [|done].
  rewrite !filter_cons in *. rewrite IH.
  destruct (decide (tied k y)) as [Hy|Hy]; [|done].
  destruct (decide (tied k x)) as [Hx|Hx]; [exfalso|done].
  unfold tied in *. apply Qeq_bool_iff in Hx, Hy. lra.
Qed.

Lemma sortSummary_tied k l :
  filter (tied k) (sortSummary l) = filter (tied k) l.
Proof.
  induction l as [|x l IH]; [done|].
  unfold sortSummary in *. simpl. rewrite insertBy_tied.
  rewrite !filter_cons. by rewrite IH.
Qed.

(** C2, counterexample: two rows with the same expected value stay in
    their input order, though the second has the greater win
    probability. *)
Lemma sortSummary_tie_counterexample :
  sortSummary [rowA; rowB] = [rowA; rowB]
  ∧ ¬ Sorted rankedBefore (sortSummary [rowA; rowB]).
Proof.
  split; [reflexivity|].
  intros Hs. change (sortSummary [rowA; rowB]) with [rowA; rowB] in Hs.
  inversion Hs as [|? ? _ Hhd]; subst.
  inversion Hhd as [|? ? Hr]; subst.
  unfold rankedBefore, rowA, rowB in Hr; simpl in Hr.
  destruct Hr as [Hr|[[_ Hr]|[[_ Hr] _]]];
    unfold Qlt, Qeq in Hr; simpl in Hr; lia.
Qed.

(** C2, as amended: the sorted summary is a rearrangement of the input
    in which no row has a smaller expected value than the row after it,
    and rows with equal expected value keep the order they had in the
    input; win probability and team name play no part. *)
Theorem sortSummary_spec (summary : list weekSummary) :
  Permutation (sortSummary summary) summary
  ∧ Sorted evDescending (sortSummary summary)
  ∧ ∀ k, filter (tied k) (sortSummary summary) = filter (tied k) summary.
Proof.
  split_and!.
  - apply sortBy_Permutation.
  - apply sortSummary_evDescending.
  - intros k. apply sortSummary_tied.
Qed.

End SummaryFacts.

(** ** Week and entry-count inputs *)

Module ControlsFacts.
Import Controls.

(** C5, counterexample: week 19 is outside 1..18, and the handler stores
    week 18 for it; week 0 is stored as week 1. *)
Lemma weekOnChange_clamp_counterexample :
  parseInt "19" None = Num 19
  ∧ ¬ (1 ≤ 19 ≤ 18)%Z
  ∧ weekOnChange "19" = Num 18
  ∧ parseInt "0" None = Num 0
  ∧ ¬ (1 ≤ 0 ≤ 18)%Z
  ∧ weekOnChange "0" = Num 1.
Proof. split_and!; try reflexivity; lia. Qed.

(** C5, as amended: the week handler never fails; a parsed week above 18
    is stored as 18, one below 1 as 1, any other as it is, and an input
    that does not parse is stored as [NaN]. *)
Theorem weekOnChange_clamps (value : string) :
  weekOnChange value
  = match parseInt value None with
    | NaN => NaN
    | Num z => Num (Z.max 1 (Z.min 18 z))
    end.
Proof.
  unfold weekOnChange. destruct (parseInt value None) as [|z]; [done|].
  unfold gt, lt. repeat case_bool_decide; f_equal; lia.
Qed.

(** The stored week is within the season whenever it is a number. *)
Lemma weekOnChange_in_range value w :
  weekOnChange value = Num w → (1 ≤ w ≤ 18)%Z.
Proof.
  unfold weekOnChange. destruct (parseInt value None) as [|z]; [done|].
  unfold gt, lt. repeat case_bool_decide; intros [= <-]; lia.
Qed.

(** The earlier version of the component stores the parsed week as it
    is. *)
Lemma weekOnChange_v1_unchecked :
  weekOnChange_v1 "19" = Num 19 ∧ weekOnChange_v1 "0" = Num 0.
Proof. split; reflexivity. Qed.





End ControlsFacts.

(** ** Colour interpolation at its end points *)

Module ColorFacts.
Import Color.

Local Open Scope Z_scope.

(** Two lower-case hexadecimal digits parse to a byte, which prints back
    as the same two digits. *)
Lemma parse_byte c1 c2 :
  lowerHex c1 = true → lowerHex c2 = true →
  parseInt (String c1 (String c2 EmptyString)) (Some 16) = Num (hexByte c1 c2)
  ∧ 0 ≤ hexByte c1 c2 < 256
  ∧ hex2 (hexByte c1 c2) EmptyString = String c1 (String c2 EmptyString).
Proof.
  intros H1 H2.
  destruct c1 as [[] [] [] [] [] [] [] []]; vm_compute in H1;
    try discriminate H1; clear H1;
    destruct c2 as [[] [] [] [] [] [] [] []]; vm_compute in H2;
    try discriminate H2; clear H2; vm_compute; intuition congruence.
Qed.

Lemma Qfloor_half (x : Z) (q : Q) :
  (q == inject_Z x)%Q → Qfloor (q + (1 # 2)) = x.
Proof.
  intros Hq.
  assert (Heq : (q + (1 # 2) == inject_Z x + (1 # 2))%Q) by (rewrite Hq; reflexivity).
  rewrite Heq. unfold Qfloor, Qplus, inject_Z. simpl.
  symmetry. apply Z.div_unique with (r := 1); lia.
Qed.

Lemma mix_0 x y : mix (Num x) (Num y) 0 = Some x.
Proof. unfold mix. f_equal. apply Qfloor_half. ring. Qed.

Lemma mix_1 x y : mix (Num x) (Num y) 1 = Some y.
Proof. unfold mix. f_equal. apply Qfloor_half. ring. Qed.

Lemma toInt32_small z :
  - 2 ^ 31 ≤ z < 2 ^ 31 → toInt32 (Some z) = z.
Proof.
  intros Hz. unfold toInt32. rewrite Z.mod_small; lia.
Qed.

Lemma shl_small v k :
  0 ≤ v < 256 → 0 ≤ k ≤ 16 → shl (Some v) k = v * 2 ^ k.
Proof.
  intros Hv Hk. unfold shl.
  assert (H2k : 0 < 2 ^ k ≤ 2 ^ 16).
  { split; [apply Z.pow_pos_nonneg; lia|].
    apply Z.pow_le_mono_r; lia. }
  rewrite (toInt32_small v) by lia.
  rewrite Z.shiftl_mul_pow2 by lia.
  apply toInt32_small. nia.
Qed.

(** Two iterations of the digit loop peel off the low byte. *)
Lemma hexDigits_byte fuel hi lo acc :
  1 ≤ hi → 0 ≤ lo < 256 →
  hexDigits (S (S fuel)) (hi * 256 + lo) acc
  = hexDigits fuel hi (hex2 lo acc).
Proof.
  intros Hhi Hlo. unfold hex2. simpl.
  assert (H1 : (hi * 256 + lo) mod 16 = lo mod 16).
  { replace (hi * 256 + lo) with (lo + (hi * 16) * 16) by lia.
    apply Z.mod_add. lia. }
  assert (H2 : (hi * 256 + lo) / 16 = hi * 16 + lo / 16).
  { replace (hi * 256 + lo) with (lo + (hi * 16) * 16) by lia.
    rewrite Z.div_add by lia. lia. }
  assert (H3 : 0 ≤ lo / 16 < 16).
  { split; [apply Z.div_pos; lia|apply Z.div_lt_upper_bound; lia]. }
  assert (H4 : (hi * 16 + lo / 16) mod 16 = lo / 16).
  { replace (hi * 16 + lo / 16) with (lo / 16 + hi * 16) by lia.
    rewrite Z.mod_add by lia. apply Z.mod_small. lia. }
  assert (H5 : (hi * 16 + lo / 16) / 16 = hi).
  { replace (hi * 16 + lo / 16) with (lo / 16 + hi * 16) by lia.
    rewrite Z.div_add by lia. rewrite Z.div_small by lia. lia. }
  rewrite bool_decide_eq_false_2 by lia.
  rewrite H1, H2.
  rewrite bool_decide_eq_false_2 by lia.
  rewrite H4, H5. done.
Qed.

(** The packed colour prints as a 1 followed by the six digits. *)
Lemma toString16_packed r g b :
  0 ≤ r < 256 → 0 ≤ g < 256 → 0 ≤ b < 256 →
  toString16 (Some (2 ^ 24 + r * 2 ^ 16 + g * 2 ^ 8 + b))
  = String "1" (hex2 r (hex2 g (hex2 b EmptyString))).
Proof.
  intros Hr Hg Hb. unfold toString16.
  rewrite bool_decide_eq_false_2 by lia.
  assert (Hlog : Z.log2 (2 ^ 24 + r * 2 ^ 16 + g * 2 ^ 8 + b) = 24).
  { apply Z.log2_unique; lia. }
  rewrite Hlog.
  replace (2 ^ 24 + r * 2 ^ 16 + g * 2 ^ 8 + b)
    with (((1 * 256 + r) * 256 + g) * 256 + b) by lia.
  change (S (Z.to_nat 24)) with (S (S (S (S (S (S 19)))))).
  rewrite !hexDigits_byte by lia.
  reflexivity.
Qed.

(** The colour computed from two literals, in terms of their bytes. *)
Lemma interpolateColor_bytes c1 c2 c3 c4 c5 c6 k1 k2 k3 k4 k5 k6 t :
  lowerHex c1 = true → lowerHex c2 = true → lowerHex c3 = true →
  lowerHex c4 = true → lowerHex c5 = true → lowerHex c6 = true →
  lowerHex k1 = true → lowerHex k2 = true → lowerHex k3 = true →
  lowerHex k4 = true → lowerHex k5 = true → lowerHex k6 = true →
  interpolateColor
    (String "#" (String c1 (String c2 (String c3
       (String c4 (String c5 (String c6 EmptyString)))))))
    (String "#" (String k1 (String k2 (String k3
       (String k4 (String k5 (String k6 EmptyString)))))))
    t
  = String "#" (slice1 (toString16
      (add (add (add (Some (shl (Some 1) 24))
                     (Some (shl (mix (Num (hexByte c1 c2))
                                     (Num (hexByte k1 k2)) t) 16)))
                (Some (shl (mix (Num (hexByte c3 c4))
                                (Num (hexByte k3 k4)) t) 8)))
           (mix (Num (hexByte c5 c6)) (Num (hexByte k5 k6)) t)))).
Proof.
  intros Hc1 Hc2 Hc3 Hc4 Hc5 Hc6 Hk1 Hk2 Hk3 Hk4 Hk5 Hk6.
  unfold interpolateColor.
  change (removeHash (String "#" ?s)) with s.
  unfold substring. simpl String.substring.
  destruct (parse_byte c1 c2 Hc1 Hc2) as (-> & _ & _).
  destruct (parse_byte c3 c4 Hc3 Hc4) as (-> & _ & _).
  destruct (parse_byte c5 c6 Hc5 Hc6) as (-> & _ & _).
  destruct (parse_byte k1 k2 Hk1 Hk2) as (-> & _ & _).
  destruct (parse_byte k3 k4 Hk3 Hk4) as (-> & _ & _).
  destruct (parse_byte k5 k6 Hk5 Hk6) as (-> & _ & _).
  reflexivity.
Qed.

(** A byte triple packs and prints back as its six digits. *)
Lemma packed_prints r g b :
  0 ≤ r < 256 → 0 ≤ g < 256 → 0 ≤ b < 256 →
  String "#" (slice1 (toString16
      (add (add (add (Some (shl (Some 1) 24)) (Some (shl (Some r) 16)))
                (Some (shl (Some g) 8)))
           (Some b))))
  = String "#" (hex2 r (hex2 g (hex2 b EmptyString))).
Proof.
  intros Hr Hg Hb.
  rewrite (shl_small r 16), (shl_small g 8) by lia.
  change (shl (Some 1) 24) with (2 ^ 24).
  simpl add. rewrite toString16_packed by done. reflexivity.
Qed.

(** C10: for colour literals [a] and [b] ([#] and six lower-case
    hexadecimal digits each), [interpolateColor] returns [a] at weight 0
    and [b] at weight 1. *)
Theorem interpolateColor_endpoints (a b : string) :
  isColor a → isColor b →
  interpolateColor a b 0 = a ∧ interpolateColor a b 1 = b.
Proof.
  intros (c1 & c2 & c3 & c4 & c5 & c6 & -> & Hc1 & Hc2 & Hc3 & Hc4 & Hc5 & Hc6).
  intros (k1 & k2 & k3 & k4 & k5 & k6 & -> & Hk1 & Hk2 & Hk3 & Hk4 & Hk5 & Hk6).
  rewrite !interpolateColor_bytes by done.
  rewrite !mix_0, !mix_1.
  destruct (parse_byte c1 c2 Hc1 Hc2) as (_ & Hr & Er).
  destruct (parse_byte c3 c4 Hc3 Hc4) as (_ & Hg & Eg).
  destruct (parse_byte c5 c6 Hc5 Hc6) as (_ & Hb & Eb).
  destruct (parse_byte k1 k2 Hk1 Hk2) as (_ & Hr' & Er').
  destruct (parse_byte k3 k4 Hk3 Hk4) as (_ & Hg' & Eg').
  destruct (parse_byte k5 k6 Hk5 Hk6) as (_ & Hb' & Eb').
  rewrite !packed_prints by done.
  unfold hex2 in *.
  injection Er as -> ->. injection Eg as -> ->. injection Eb as -> ->.
  injection Er' as -> ->. injection Eg' as -> ->. injection Eb' as -> ->.
  done.
Qed.

Lemma interpolateColor_endpoints_witness :
  interpolateColor "#f87171" "#a78bfa" 0 = "#f87171"
  ∧ interpolateColor "#f87171" "#a78bfa" 1 = "#a78bfa".
Proof.
  apply (interpolateColor_endpoints "#f87171" "#a78bfa").
  - unfold isColor. do 6 eexists. split; [reflexivity|].
    split_and!; reflexivity.
  - unfold isColor. do 6 eexists. split; [reflexivity|].
    split_and!; reflexivity.
Defined.

End ColorFacts.

(** ** The Elo update of the rating store *)

Module RatingStoreFacts.
Import RatingStore.

Section Elo.
Variables (K S : R).

Local Open Scope R_scope.

(** The logistic transform gives the two sides of a game complementary
    expectations. *)
Lemma expected_outcome_sym ra rb :
  expected_outcome S ra rb + expected_outcome S rb ra = 1.
Proof.
  unfold expected_outcome.
  replace (- (rb - ra) / S) with (- (- (ra - rb) / S))
    by (unfold Rdiv; ring).
  set (x := - (ra - rb) / S).
  rewrite Rpower_Ropp.
  assert (Hp : 0 < Rpower 10 x) by (unfold Rpower; apply exp_pos).
  set (p := Rpower 10 x) in *.
  assert (Hinv : 0 < / p) by (by apply Rinv_0_lt_compat).
  field. split; lra.
Qed.

(** Winner and loser move by opposite amounts. *)
Lemma delta_zero_sum rw rl :
  delta K S 1 rw rl + delta K S 0 rl rw = 0.
Proof.
  unfold delta.
  pose proof (expected_outcome_sym rw rl) as Hsym.
  replace (K * (1 - expected_outcome S rw rl)
           + K * (0 - expected_outcome S rl rw))
    with (K * (1 - (expected_outcome S rw rl + expected_outcome S rl rw)))
    by ring.
  rewrite Hsym. ring.
Qed.

Lemma apply_results_zero_sum hi wk results : ∀ m m' log,
  apply_results K S hi wk results m = inr (m', log) →
  sum_deltas log = 0.
Proof.
  induction results as [|g rest IH]; intros m m' log; simpl.
  - by intros [= <- <-].
  - case_bool_decide as Hg; [|by apply IH].
    destruct (get_rating m (winner g)) as [e|rw]; [done|].
    destruct (get_rating m (loser g)) as [e|rl]; [done|].
    destruct (apply_results K S hi wk rest _) as [e|[m'' log']] eqn:Hrest;
      [done|].
    intros [= <- <-]. simpl.
    rewrite (IH _ _ _ Hrest).
    pose proof (delta_zero_sum rw rl). lra.
Qed.

(** The listed deltas are the changes made to the ratings: when no game
    pits a team against itself, every rating ends as it was plus the
    deltas listed for its team. *)
Lemma apply_results_ratings hi wk results : ∀ m m' log,
  Forall (λ g, winner g ≠ loser g) results →
  apply_results K S hi wk results m = inr (m', log) →
  ∀ t, m' !! t = (λ r, r + team_delta t log) <$> (m !! t).
Proof.
  induction results as [|g rest IH]; intros m m' log Hne; simpl.
  - intros [= <- <-] t. unfold team_delta. simpl.
    destruct (m !! t) as [r|]; simpl; [|done]. f_equal. lra.
  - apply Forall_cons in Hne as [Hg Hne].
    case_bool_decide as Hwk; [|by apply IH].
    unfold get_rating.
    destruct (m !! winner g) as [rw|] eqn:Hw; [|done].
    destruct (m !! loser g) as [rl|] eqn:Hl; [|done].
    destruct (apply_results K S hi wk rest _) as [e|[m'' log']] eqn:Hrest;
      [done|].
    intros [= <- <-] t.
    rewrite (IH _ _ _ Hne Hrest t).
    unfold team_delta. rewrite !filter_cons. simpl.
    destruct (decide (t = loser g)) as [->|Htl].
    + rewrite lookup_insert_eq, Hl. simpl.
      rewrite decide_False by done. rewrite decide_True by done.
      simpl. f_equal. lra.
    + rewrite lookup_insert_ne by done.
      rewrite (decide_False (P := loser g = t)) by done.
      destruct (decide (t = winner g)) as [->|Htw].
      * rewrite lookup_insert_eq, Hw. simpl.
        rewrite decide_True by done. simpl. f_equal. lra.
      * rewrite lookup_insert_ne by done.
        rewrite decide_False by done. done.
Qed.

Lemma total_rating_insert_fresh (m : gmap string R) t r :
  m !! t = None → total_rating (<[t := r]> m) = r + total_rating m.
Proof.
  intros Hnone. unfold total_rating.
  apply (map_fold_insert_L (λ _ r acc, r + acc)); [|done].
  intros. ring.
Qed.

Lemma total_rating_insert (m : gmap string R) t r r' :
  m !! t = Some r →
  total_rating (<[t := r']> m) = total_rating m - r + r'.
Proof.
  intros Hsome.
  rewrite <- (insert_delete_eq m t r').
  rewrite <- (insert_delete_id m t r Hsome) at 2.
  rewrite !total_rating_insert_fresh by apply lookup_delete_eq.
  ring.
Qed.

(** The ratings keep their sum when every game has two different
    teams. *)
Lemma apply_results_total hi wk results : ∀ m m' log,
  Forall (λ g, winner g ≠ loser g) results →
  apply_results K S hi wk results m = inr (m', log) →
  total_rating m' = total_rating m.
Proof.
  induction results as [|g rest IH]; intros m m' log Hne; simpl.
  - by intros [= <- <-].
  - apply Forall_cons in Hne as [Hg Hne].
    case_bool_decide as Hwk; [|by apply IH].
    unfold get_rating.
    destruct (m !! winner g) as [rw|] eqn:Hw; [|done].
    destruct (m !! loser g) as [rl|] eqn:Hl; [|done].
    destruct (apply_results K S hi wk rest _) as [e|[m'' log']] eqn:Hrest;
      [done|].
    intros [= <- <-].
    rewrite (IH _ _ _ Hne Hrest).
    rewrite (total_rating_insert _ (loser g) rl)
      by (rewrite lookup_insert_ne by done; done).
    rewrite (total_rating_insert _ (winner g) rw) by done.
    pose proof (delta_zero_sum rw rl). lra.
Qed.

(** Games at or below the highest applied week are skipped. *)
Lemma apply_results_applied hi wk results m :
  (wk ≤ hi)%Z → apply_results K S hi wk results m = inr (m, []).
Proof.
  intros Hle. induction results as [|g rest IH]; simpl; [done|].
  rewrite bool_decide_eq_false_2 by lia. done.
Qed.

(** The update goes through when every team of [results] has a
    rating. *)
Lemma apply_results_known hi wk results : ∀ m,
  Forall (λ g, is_Some (m !! winner g) ∧ is_Some (m !! loser g)) results →
  ∃ m' log, apply_results K S hi wk results m = inr (m', log)
            ∧ dom m' = dom m.
Proof.
  induction results as [|g rest IH]; intros m Hknown; simpl.
  - by exists m, [].
  - apply Forall_cons in Hknown as [[[rw Hw] [rl Hl]] Hrest].
    case_bool_decide as Hg; [|by apply IH].
    unfold get_rating. rewrite Hw, Hl.
    set (m1 := <[loser g := _]> (<[winner g := _]> m)).
    assert (Hdom : dom m1 = dom m).
    { unfold m1. rewrite !dom_insert_L.
      apply elem_of_dom_2 in Hw, Hl. apply set_eq. intros x.
      rewrite !elem_of_union, !elem_of_singleton.
      split; [intros [->|[->|?]]; done|tauto]. }
    destruct (IH m1) as (m' & log & Hm' & Hdom').
    { eapply Forall_impl; [exact Hrest|].
      intros g' [H1 H2]. rewrite <- !elem_of_dom in *.
      by rewrite Hdom. }
    rewrite Hm'. eexists _, _. split; [done|]. by rewrite Hdom'.
Qed.

End Elo.

(** C3: after [update_through(w, results)] has gone through, a second
    call with the same arguments applies no adjustment and leaves the
    store, ratings included, as the first call left it. This holds for
    every [results], in particular when all its games have week at most
    [w]. *)
Theorem update_through_idempotent (K S : R) (wk : Z) (results : list result)
    (st st' : store) (log : list (string * R)) :
  update_through K S wk results st = inr (st', log) →
  update_through K S wk results st' = inr (st', []).
Proof.
  unfold update_through.
  destruct (apply_results K S (applied st) wk results (ratings st))
    as [e|[m l]]; [done|].
  intros [= <- <-]. simpl.
  rewrite apply_results_applied by lia.
  do 2 f_equal. f_equal. lia.
Qed.

Lemma update_through_idempotent_witness :
  update_through 20 400 1 demoResults demoStore' = inr (demoStore', []).
Proof.
  apply (update_through_idempotent 20 400 1 demoResults
           demoStore demoStore' demoLog).
  reflexivity.
Defined.

(** C4: when every game of [results] has two different teams, every
    game moves its winner and its loser by opposite amounts, the rating
    deltas that [update_through] applies sum to 0, every rating of the
    store ends as it was plus the deltas applied to its team, and the
    ratings of the store keep their sum. *)
Theorem update_through_zero_sum (K S : R) (wk : Z) (results : list result)
    (st st' : store) (log : list (string * R)) :
  Forall (λ g, winner g ≠ loser g) results →
  update_through K S wk results st = inr (st', log) →
  (∀ rw rl, delta K S 1 rw rl = - delta K S 0 rl rw)%R
  ∧ sum_deltas log = 0%R
  ∧ (∀ t, ratings st' !! t
          = (λ r, (r + team_delta t log)%R) <$> ratings st !! t)
  ∧ total_rating (ratings st') = total_rating (ratings st).
Proof.
  intros Hne Hup.
  unfold update_through in Hup.
  destruct (apply_results K S (applied st) wk results (ratings st))
    as [e|[m l]] eqn:Hres; [done|].
  injection Hup as <- <-. simpl. split_and!.
  - intros rw rl. pose proof (delta_zero_sum K S rw rl). lra.
  - by eapply apply_results_zero_sum.
  - by eapply apply_results_ratings.
  - by eapply apply_results_total.
Qed.

Lemma update_through_zero_sum_witness :
  (∀ rw rl, delta 20 400 1 rw rl = - delta 20 400 0 rl rw)%R
  ∧ sum_deltas demoLog = 0%R
  ∧ (∀ t, ratings demoStore' !! t
          = (λ r, (r + team_delta t demoLog)%R) <$> ratings demoStore !! t)
  ∧ total_rating (ratings demoStore') = total_rating (ratings demoStore).
Proof.
  apply (update_through_zero_sum 20 400 1 demoResults
           demoStore demoStore' demoLog).
  - repeat constructor. discriminate.
  - reflexivity.
Defined.

End RatingStoreFacts.

(** * Further properties of the component *)

(** ** Pick edits: failure, frame and repetition *)

Module EditFacts.
Import Picks JSFacts PicksFacts.

(** X1: [handlePickChange] throws exactly when [weekIdx] is not a week of
    the table; otherwise the table keeps its number of weeks. *)
Theorem handlePickChange_weeks (prev : table) w e team :
  match handlePickChange prev w e team with
  | None => length prev ≤ w
  | Some updated => w < length prev ∧ length updated = length prev
  end.
Proof.
  destruct (handlePickChange prev w e team) as [updated|] eqn:Hh.
  - split; [|by eapply length_handlePickChange].
    destruct (decide (w < length prev)) as [|Hge]; [done|].
    rewrite handlePickChange_None in Hh by lia. done.
  - destruct (decide (length prev ≤ w)) as [|Hlt]; [done|].
    destruct (handlePickChange_Some prev w e team) as [u Hu]; [lia|].
    congruence.
Qed.

(** X2: after an edit, the edited cell has the team, every later week of
    the same entry that had the team reads [null], and every other cell
    reads as before. *)
Theorem handlePickChange_cells (prev : table) w e team updated :
  handlePickChange prev w e team = Some updated →
  cell updated w e = Some team
  ∧ (∀ w', w < w' → cell prev w' e = Some team →
       cell updated w' e = Some JNull)
  ∧ (∀ w' e', ¬ (w' = w ∧ e' = e) →
       ¬ (w < w' ∧ e' = e ∧ cell prev w' e = Some team) →
       cell updated w' e' = cell prev w' e').
Proof.
  intros Hh. split_and!.
  - rewrite (cell_handlePickChange _ _ _ _ _ _ _ Hh).
    by rewrite decide_True.
  - intros w' Hw' Hc. rewrite (cell_handlePickChange _ _ _ _ _ _ _ Hh).
    rewrite decide_False by lia. by rewrite decide_True.
  - intros w' e' H1 H2. rewrite (cell_handlePickChange _ _ _ _ _ _ _ Hh).
    rewrite decide_False by done. by rewrite decide_False.
Qed.

Lemma handlePickChange_cells_witness :
  cell [[JStr "A"]; [JStr "B"]; [JNull]] 1 0 = Some (JStr "B")
  ∧ (∀ w', 1 < w' →
       cell [[JStr "A"]; [JNull]; [JStr "B"]] w' 0 = Some (JStr "B") →
       cell [[JStr "A"]; [JStr "B"]; [JNull]] w' 0 = Some JNull)
  ∧ (∀ w' e', ¬ (w' = 1 ∧ e' = 0) →
       ¬ (1 < w' ∧ e' = 0
          ∧ cell [[JStr "A"]; [JNull]; [JStr "B"]] w' 0 = Some (JStr "B")) →
       cell [[JStr "A"]; [JStr "B"]; [JNull]] w' e'
       = cell [[JStr "A"]; [JNull]; [JStr "B"]] w' e').
Proof.
  apply (handlePickChange_cells [[JStr "A"]; [JNull]; [JStr "B"]] 1 0
           (JStr "B") [[JStr "A"]; [JStr "B"]; [JNull]]).
  reflexivity.
Defined.

Lemma length_set r e v : e < length (set r e v).
Proof.
  unfold set. case_decide.
  - by rewrite length_insert.
  - rewrite !length_app, length_replicate. simpl. lia.
Qed.

Lemma set_same r e v : get r e = v → e < length r → set r e v = r.
Proof.
  intros Hg He. unfold set. rewrite decide_True by done.
  apply list_insert_id. unfold get in Hg.
  destruct (lookup_lt_is_Some_2 r e He) as [x Hx].
  rewrite Hx in Hg. simpl in Hg. by subst.
Qed.

Lemma lookup_clearLater_lt n : ∀ w e team (updated : table) w',
  w' < w → clearLater n w e team updated !! w' = updated !! w'.
Proof.
  induction n as [|n IH]; intros w e team updated w' Hw'; [done|].
  simpl. rewrite IH by lia.
  destruct (updated !! w); [|done].
  destruct (strict_eq _ _); [|done].
  rewrite list_lookup_insert_ne by lia. done.
Qed.

(** The loop changes nothing when writing [null] over a cell that has
    the team would change nothing. *)
Lemma clearLater_noop n : ∀ w e team (updated : table),
  (∀ w' r, w ≤ w' < w + n → updated !! w' = Some r →
     get r e = team → set r e JNull = r) →
  clearLater n w e team updated = updated.
Proof.
  induction n as [|n IH]; intros w e team updated Hno; [done|].
  simpl.
  assert (Hstep : match updated !! w with
                  | Some r =>
                      if strict_eq (get r e) team
                      then <[w := set r e JNull]> updated
                      else updated
                  | None => updated
                  end = updated).
  { destruct (updated !! w) as [r|] eqn:Hr; [|done].
    destruct (strict_eq (get r e) team) eqn:Heq; [|done].
    apply strict_eq_true in Heq.
    rewrite (Hno w r) by (done || lia).
    by apply list_insert_id. }
  rewrite Hstep. apply IH. intros w' r Hw'. apply Hno. lia.
Qed.

(** X3: repeating an edit changes nothing more. *)
Theorem handlePickChange_idempotent (prev : table) w e team updated :
  handlePickChange prev w e team = Some updated →
  handlePickChange updated w e team = Some updated.
Proof.
  intros Hh. pose proof Hh as Hdef. unfold handlePickChange in Hdef.
  destruct (prev !! w) as [r|] eqn:Hr; [|done].
  injection Hdef as Hdef.
  assert (Hw : w < length prev) by (by eapply lookup_lt_Some).
  assert (Hrow : updated !! w = Some (set r e team)).
  { rewrite <- Hdef. rewrite lookup_clearLater_lt by lia.
    by rewrite list_lookup_insert_eq. }
  unfold handlePickChange. rewrite Hrow.
  rewrite (set_same (set r e team) e team)
    by (apply get_set_eq || apply length_set).
  rewrite (list_insert_id updated w _ Hrow).
  f_equal. apply clearLater_noop.
  intros w' r1 Hw' Hr1 Hg.
  assert (Hc : cell updated w' e = Some team).
  { unfold cell. rewrite Hr1. simpl. by rewrite Hg. }
  rewrite (cell_handlePickChange _ _ _ _ _ _ _ Hh) in Hc.
  rewrite decide_False in Hc by lia.
  case_decide as Hcond.
  - injection Hc as <-. apply set_same; [done|].
    destruct (decide (e < length r1)) as [|Hge]; [done|].
    unfold get in Hg. rewrite lookup_ge_None_2 in Hg by lia. done.
  - exfalso. apply Hcond. split_and!; [lia|done|done].
Qed.

Lemma handlePickChange_idempotent_witness :
  handlePickChange [[JStr "A"]; [JStr "B"]; [JNull]] 1 0 (JStr "B")
  = Some [[JStr "A"]; [JStr "B"]; [JNull]].
Proof.
  apply (handlePickChange_idempotent [[JStr "A"]; [JNull]; [JStr "B"]]).
  reflexivity.
Defined.

End EditFacts.

(** ** Teams on offer: both dropdown helpers *)

Module OfferFacts.
Import Picks Schedule Dropdown JSFacts ReuseFacts ScheduleFacts.

(** X4: [getAvailableTeamsForEntryWeek] returns, without duplicates,
    exactly the teams playing in week [weekIdx + 1] that the entry holds
    in no earlier week. *)
Theorem getAvailableTeamsForEntryWeek_spec sched (picks : table) w e :
  NoDup (getAvailableTeamsForEntryWeek sched picks w e)
  ∧ ∀ t, t ∈ getAvailableTeamsForEntryWeek sched picks w e
      ↔ (∃ g, g ∈ sched ∧ week g = (Z.of_nat w + 1)%Z
              ∧ (t = home g ∨ t = away g))
        ∧ ¬ ∃ w', w' < w ∧ holds picks w' e t.
Proof.
  unfold getAvailableTeamsForEntryWeek. split.
  - apply NoDup_filter, NoDup_collectTeams.
  - intros t. rewrite list_elem_of_filter, elem_of_collectTeams.
    rewrite elem_of_alreadyPicked. unfold holds. split.
    + intros [Hnot Hg]. split; [done|].
      intros (w' & Hw' & Hc & Hne). apply Hnot.
      exists w'. split_and!; [done|done|by apply JStr_truthy].
    + intros [Hg Hnot]. split; [|done].
      intros (w' & Hw' & Hc & Ht). apply Hnot.
      exists w'. split_and!; [done|done|].
      apply truthy_JStr in Ht as (s & [= ->] & Hs). done.
Qed.

Lemma elem_of_setOf_loop {A} `{EqDecision A} (l : list A) : ∀ acc x,
  x ∈ fold_left setAdd l acc ↔ x ∈ acc ∨ x ∈ l.
Proof.
  induction l as [|y l IH]; intros acc x; simpl.
  - split; [tauto|]. intros [?|Hx]; [done|by inversion Hx].
  - rewrite IH, elem_of_setAdd, elem_of_cons. tauto.
Qed.

Lemma elem_of_setOf {A} `{EqDecision A} (l : list A) x :
  x ∈ setOf l ↔ x ∈ l.
Proof.
  unfold setOf. rewrite elem_of_setOf_loop.
  split; [|tauto]. intros [Hx|?]; [by inversion Hx|done].
Qed.

Lemma ltS_trans a b c : ltS a b → ltS b c → ltS a c.
Proof.
  unfold ltS, String.ltb. intros Hab Hbc.
  destruct (String.compare a b) eqn:H1; try done.
  destruct (String.compare b c) eqn:H2; try done.
  assert (H3 : String.compare a c = Lt).
  { apply OrderedTypeEx.String_as_OT.cmp_lt.
    eapply OrderedTypeEx.String_as_OT.lt_trans;
      by apply OrderedTypeEx.String_as_OT.cmp_lt. }
  by rewrite H3.
Qed.

Lemma StronglySorted_filter {A} (R : A → A → Prop) (P : A → Prop)
    `{∀ x, Decision (P x)} l :
  StronglySorted R l → StronglySorted R (filter P l).
Proof.
  induction 1 as [|x l Hs IH Hall]; [constructor|].
  rewrite filter_cons. case_decide; [|done].
  constructor; [done|].
  apply Forall_forall. intros y [_ Hy]%list_elem_of_filter.
  rewrite Forall_forall in Hall. by apply Hall.
Qed.

Lemma getTeamsForWeek_StronglySorted sched w :
  StronglySorted ltS (getTeamsForWeek sched w).
Proof.
  apply Sorted_StronglySorted.
  - intros a b c. apply ltS_trans.
  - unfold getTeamsForWeek.
    apply Sorted_NoDup_strict; [apply sortStrings_Sorted|].
    rewrite sortStrings_Permutation. apply NoDup_collectTeams.
Qed.

Lemma elem_of_getTeamsForWeek sched w t :
  t ∈ getTeamsForWeek sched w ↔ t ∈ collectTeams sched (Z.of_nat w + 1)%Z.
Proof. unfold getTeamsForWeek. by rewrite sortStrings_Permutation. Qed.

(** The picks [getAvailableTeams] rules out. *)
Lemma elem_of_entry_picked (r : row) w v :
  v ∈ setOf (filter (λ v, truthy v = true) (take w r))
  ↔ ∃ w', w' < w ∧ r !! w' = Some v ∧ truthy v = true.
Proof.
  rewrite elem_of_setOf, list_elem_of_filter, elem_of_take.
  split.
  - intros [Ht (i & Hi & Hlt)]. by exists i.
  - intros (i & Hlt & Hi & Ht). split; [done|]. by exists i.
Qed.

(** X5: [getAvailableTeams] returns, in strictly ascending order, exactly
    the teams playing in week [weekIdx + 1] that are not among the first
    [weekIdx] picks of row [entryIdx] of the entry-major pick table. *)
Theorem getAvailableTeams_spec sched (editPicks : table) e w :
  StronglySorted ltS (getAvailableTeams sched editPicks e w)
  ∧ ∀ t, t ∈ getAvailableTeams sched editPicks e w
      ↔ (∃ g, g ∈ sched ∧ week g = (Z.of_nat w + 1)%Z
              ∧ (t = home g ∨ t = away g))
        ∧ ¬ ∃ r w', editPicks !! e = Some r ∧ w' < w
                    ∧ r !! w' = Some (JStr t) ∧ t ≠ "".
Proof.
  unfold getAvailableTeams. split.
  - apply StronglySorted_filter, getTeamsForWeek_StronglySorted.
  - intros t. rewrite list_elem_of_filter, elem_of_getTeamsForWeek.
    rewrite elem_of_collectTeams. split.
    + intros [Hnot Hg]. split; [done|].
      intros (r & w' & Hr & Hw' & Hc & Hne). apply Hnot.
      rewrite Hr. apply elem_of_entry_picked.
      exists w'. split_and!; [done|done|by apply JStr_truthy].
    + intros [Hg Hnot]. split; [|done].
      destruct (editPicks !! e) as [r|] eqn:Hr; [|by intros ?%elem_of_nil].
      intros (w' & Hw' & Hc & Ht)%elem_of_entry_picked. apply Hnot.
      exists r, w'. split_and!; [done|done|done|].
      apply truthy_JStr in Ht as (s & [= ->] & Hs). done.
Qed.

End OfferFacts.

(** ** Transposing: ragged tables, twice, and the two dropdown helpers *)

Module TransposeMore.
Import Picks Schedule Dropdown JSFacts ReuseFacts TransposeFacts OfferFacts.

Lemma lookup_transposePicks (a : table) (r0 : row) e :
  a !! 0 = Some r0 → e < length r0 →
  transposePicks (Some a) !! e
  = Some (map (λ week, orEmpty (get (default [] (a !! week)) e))
              (seq 0 (length a))).
Proof.
  intros H0 He. rewrite (transposePicks_unfold a r0 H0).
  rewrite list_lookup_fmap, lookup_seq_lt by done. done.
Qed.

Lemma lookup_transposePicks_ge (a : table) (r0 : row) e :
  a !! 0 = Some r0 → length r0 ≤ e → transposePicks (Some a) !! e = None.
Proof.
  intros H0 He. rewrite (transposePicks_unfold a r0 H0).
  apply lookup_ge_None_2. by rewrite length_map, length_seq.
Qed.

Lemma lookup_transposed_row (a : table) e w :
  map (λ week, orEmpty (get (default [] (a !! week)) e)) (seq 0 (length a))
    !! w
  = (λ r, orEmpty (get r e)) <$> a !! w.
Proof.
  rewrite list_lookup_fmap.
  destruct (decide (w < length a)) as [Hw|Hw].
  - rewrite lookup_seq_lt by done. simpl.
    destruct (lookup_lt_is_Some_2 a w Hw) as [r ->]. done.
  - rewrite (lookup_ge_None_2 a) by lia.
    rewrite lookup_ge_None_2 by (rewrite length_seq; lia). done.
Qed.

(** X6: whatever the row lengths, the result has one row per cell of the
    first week row, each with one cell per week; a cell the input lacks
    (a short week row) reads as the empty string, and cells beyond the
    length of the first week row are left out. *)
Theorem transposePicks_ragged (a : table) (r0 : row) :
  a !! 0 = Some r0 →
  length (transposePicks (Some a)) = length r0
  ∧ ∀ e, e < length r0 →
      ∃ out, transposePicks (Some a) !! e = Some out
             ∧ length out = length a
             ∧ ∀ w r, a !! w = Some r → out !! w = Some (orEmpty (get r e)).
Proof.
  intros H0. split.
  - rewrite (transposePicks_unfold a r0 H0). by rewrite length_map, length_seq.
  - intros e He. eexists. split; [by apply (lookup_transposePicks a r0)|].
    split; [by rewrite length_map, length_seq|].
    intros w r Hr. rewrite lookup_transposed_row, Hr. done.
Qed.

Lemma transposePicks_ragged_witness :
  let a := [[JStr "A"; JStr "B"]; [JStr "C"]; [JNull; JStr "D"; JStr "E"]] in
  length (transposePicks (Some a)) = 2
  ∧ ∀ e, e < 2 →
      ∃ out, transposePicks (Some a) !! e = Some out
             ∧ length out = 3
             ∧ ∀ w r, a !! w = Some r → out !! w = Some (orEmpty (get r e)).
Proof.
  intros a. apply (transposePicks_ragged a [JStr "A"; JStr "B"]).
  reflexivity.
Defined.

Lemma orEmpty_idemp v : orEmpty (orEmpty v) = orEmpty v.
Proof.
  unfold orEmpty. destruct (truthy v) eqn:Hv; [by rewrite Hv|done].
Qed.

(** X7: transposing a non-empty rectangular table with at least one
    entry twice gives the table back, with every falsy cell replaced by
    the empty string. *)
Theorem transposePicks_twice (a : table) (r0 : row) :
  a !! 0 = Some r0 → r0 ≠ [] →
  (∀ r, r ∈ a → length r = length r0) →
  transposePicks (Some (transposePicks (Some a))) = map (map orEmpty) a.
Proof.
  intros H0 Hne Hrect.
  assert (Hlen0 : 0 < length r0) by (destruct r0; [done|simpl; lia]).
  set (T := transposePicks (Some a)).
  pose proof (lookup_transposePicks a r0 0 H0 Hlen0) as HT0. fold T in HT0.
  assert (HlenT : length T = length r0).
  { unfold T. rewrite (transposePicks_unfold a r0 H0).
    by rewrite length_map, length_seq. }
  rewrite (transposePicks_unfold T _ HT0).
  rewrite length_map, length_seq, HlenT.
  apply list_eq. intros i. rewrite !list_lookup_fmap.
  destruct (decide (i < length a)) as [Hi|Hi].
  - rewrite lookup_seq_lt by done. simpl.
    destruct (lookup_lt_is_Some_2 a i Hi) as [r Hr]. rewrite Hr. simpl.
    f_equal. apply list_eq. intros j. rewrite !list_lookup_fmap.
    assert (Hlr : length r = length r0)
      by (apply Hrect; by eapply list_elem_of_lookup_2).
    destruct (decide (j < length r0)) as [Hj|Hj].
    + rewrite lookup_seq_lt by done. simpl.
      unfold T. rewrite (lookup_transposePicks a r0 j H0 Hj). simpl.
      unfold get at 1. rewrite lookup_transposed_row, Hr. simpl.
      rewrite orEmpty_idemp. unfold get.
      destruct (lookup_lt_is_Some_2 r j) as [v ->]; [lia|]. done.
    + rewrite (lookup_ge_None_2 (seq _ _)) by (rewrite length_seq; lia).
      rewrite (lookup_ge_None_2 r) by lia. done.
  - rewrite (lookup_ge_None_2 (seq _ _)) by (rewrite length_seq; lia).
    rewrite (lookup_ge_None_2 a) by lia. done.
Qed.

Lemma transposePicks_twice_witness :
  let a := [[JStr "A"; JNull]; [JStr "B"; JStr "C"]; [JStr ""; JStr "D"]] in
  transposePicks (Some (transposePicks (Some a))) = map (map orEmpty) a.
Proof.
  intros a. apply (transposePicks_twice a [JStr "A"; JNull]).
  - reflexivity.
  - discriminate.
  - intros r Hr. repeat (apply elem_of_cons in Hr as [->|Hr]; [done|]).
    by inversion Hr.
Defined.

Lemma orEmpty_team v t :
  orEmpty v = JStr t ∧ truthy (JStr t) = true
  ↔ v = JStr t ∧ truthy (JStr t) = true.
Proof.
  unfold orEmpty. split.
  - intros [Ho Ht]. destruct (truthy v) eqn:Hv; [done|].
    injection Ho as <-. done.
  - intros [-> Ht]. by rewrite Ht.
Qed.

(** X8: on a rectangular week-major pick table, [getAvailableTeams] read
    on its transpose offers the same teams as
    [getAvailableTeamsForEntryWeek] read on the table itself. *)
Theorem getAvailableTeams_transposed sched (a : table) (r0 : row) w e t :
  a !! 0 = Some r0 →
  (∀ r, r ∈ a → length r = length r0) →
  t ∈ getAvailableTeams sched (transposePicks (Some a)) e w
  ↔ t ∈ getAvailableTeamsForEntryWeek sched a w e.
Proof.
  intros H0 Hrect.
  unfold getAvailableTeams, getAvailableTeamsForEntryWeek.
  rewrite !list_elem_of_filter, elem_of_getTeamsForWeek.
  apply and_iff_compat_r. apply not_iff_compat.
  rewrite elem_of_alreadyPicked.
  destruct (decide (e < length r0)) as [He|He].
  - rewrite (lookup_transposePicks a r0 e H0 He).
    rewrite elem_of_entry_picked.
    apply exist_proper. intros w'. apply and_iff_compat_l.
    rewrite lookup_transposed_row. unfold cell.
    destruct (a !! w') as [r|]; simpl; [|naive_solver].
    split.
    + intros [[= Ho] Ht]. destruct (orEmpty_team (get r e) t) as [H1 _].
      destruct (H1 (conj Ho Ht)) as [-> _]. done.
    + intros [[= Hg] Ht]. destruct (orEmpty_team (get r e) t) as [_ H2].
      destruct (H2 (conj Hg Ht)) as [-> _]. done.
  - rewrite (lookup_transposePicks_ge a r0 e H0) by lia.
    split; [by intros ?%elem_of_nil|].
    intros (w' & _ & Hc & _). exfalso. unfold cell in Hc.
    destruct (a !! w') as [r|] eqn:Hr; [|done]. simpl in Hc.
    assert (length r = length r0)
      by (apply Hrect; by eapply list_elem_of_lookup_2).
    unfold get in Hc. rewrite lookup_ge_None_2 in Hc by lia. done.
Qed.

Lemma getAvailableTeams_transposed_witness :
  let sched := [Game 2 "B" "A"; Game 2 "C" "D"] in
  let a := [[JStr "A"; JNull]; [JNull; JStr "C"]] in
  "B" ∈ getAvailableTeams sched (transposePicks (Some a)) 0 1
  ↔ "B" ∈ getAvailableTeamsForEntryWeek sched a 1 0.
Proof.
  intros sched a.
  apply (getAvailableTeams_transposed sched a [JStr "A"; JNull] 1 0 "B").
  - reflexivity.
  - intros r Hr. repeat (apply elem_of_cons in Hr as [->|Hr]; [done|]).
    by inversion Hr.
Defined.

End TransposeMore.

(** ** Check boxes and the selection *)

Module CheckboxFacts.
Import Picks Table.

(** X9: a disabled check box belongs to a team whose toggle would change
    nothing. *)
Theorem checkboxDisabled_noop entries (prev : list string) team :
  checkboxDisabled entries prev team = true →
  handleCheckboxChange entries prev team = prev.
Proof.
  unfold checkboxDisabled, handleCheckboxChange, ge, lt.
  intros [Hin Hge]%andb_true_iff.
  apply negb_true_iff, bool_decide_eq_false in Hin.
  rewrite bool_decide_eq_false_2 by done.
  destruct entries as [|n]; [done|].
  apply bool_decide_eq_true in Hge.
  rewrite bool_decide_eq_false_2 by lia. done.
Qed.

Lemma checkboxDisabled_noop_witness :
  handleCheckboxChange (Num 2) ["A"; "B"] "C" = ["A"; "B"].
Proof.
  apply (checkboxDisabled_noop (Num 2) ["A"; "B"] "C").
  reflexivity.
Defined.

(** X10: with a numeric entry count, toggling an enabled check box flips
    whether its team is selected and leaves every other team as it
    was. *)
Theorem checkboxEnabled_toggles n (prev : list string) team :
  checkboxDisabled (Num n) prev team = false →
  (team ∈ handleCheckboxChange (Num n) prev team ↔ team ∉ prev)
  ∧ ∀ t, t ≠ team →
      (t ∈ handleCheckboxChange (Num n) prev team ↔ t ∈ prev).
Proof.
  unfold checkboxDisabled, handleCheckboxChange, ge, lt. intros Hen.
  case_bool_decide as Hin.
  - split.
    + rewrite list_elem_of_filter. tauto.
    + intros t Ht. rewrite list_elem_of_filter. tauto.
  - simpl in Hen. apply bool_decide_eq_false in Hen.
    rewrite bool_decide_eq_true_2 by lia. split.
    + rewrite elem_of_app, list_elem_of_singleton. tauto.
    + intros t Ht. rewrite elem_of_app, list_elem_of_singleton. tauto.
Qed.

Lemma checkboxEnabled_toggles_witness :
  ("B" ∈ handleCheckboxChange (Num 2) ["A"] "B" ↔ "B" ∉ ["A"])
  ∧ ∀ t, t ≠ "B" →
      (t ∈ handleCheckboxChange (Num 2) ["A"] "B" ↔ t ∈ ["A"]).
Proof.
  apply (checkboxEnabled_toggles 2 ["A"] "B").
  reflexivity.
Defined.

(** X11: selecting a team and deselecting it again restores the
    selection. *)
Theorem select_deselect n (prev : list string) team :
  team ∉ prev → (Z.of_nat (length prev) < n)%Z →
  handleCheckboxChange (Num n)
    (handleCheckboxChange (Num n) prev team) team = prev.
Proof.
  intros Hin Hlt.
  assert (H1 : handleCheckboxChange (Num n) prev team = prev ++ [team]).
  { unfold handleCheckboxChange, lt.
    rewrite bool_decide_eq_false_2 by done.
    by rewrite bool_decide_eq_true_2. }
  rewrite H1. unfold handleCheckboxChange.
  rewrite bool_decide_eq_true_2
    by (apply elem_of_app; right; apply list_elem_of_singleton; done).
  rewrite filter_app, filter_cons, filter_nil.
  rewrite decide_False by tauto. rewrite app_nil_r.
  clear H1 Hlt. induction prev as [|x prev IH]; [done|].
  apply not_elem_of_cons in Hin as [Hx Hin].
  rewrite filter_cons, decide_True by done. by rewrite IH.
Qed.

Lemma select_deselect_witness :
  handleCheckboxChange (Num 2)
    (handleCheckboxChange (Num 2) ["A"] "B") "B" = ["A"].
Proof.
  apply (select_deselect 2 ["A"] "B").
  - intros Hin. apply elem_of_cons in Hin as [Hin|Hin]; [done|].
    by inversion Hin.
  - simpl. lia.
Defined.

End CheckboxFacts.

(** ** The summary table: what a header click does and the order shown *)

Module TableFacts.
Import Summary Table SummaryFacts.

(** X12: a click on a header makes its column the sort column; a click
    on another column's header sorts descending; two clicks on the header
    of the current sort column restore the sort state. *)
Theorem handleSort_clicks col st :
  sortColumn (handleSort col st) = col
  ∧ (sortColumn st ≠ col → sortDirection (handleSort col st) = Desc)
  ∧ (sortColumn st = col → handleSort col (handleSort col st) = st).
Proof.
  destruct st as [[] []], col; split_and!;
    try reflexivity; intros H; try reflexivity; done.
Qed.

(** Insertion keeps any order the comparator decides. *)
Lemma insertBy_Sorted {A} (R : A → A → Prop) (cmp : A → A → Q) x l :
  (∀ a b, (0 < cmp a b)%Q → R b a) →
  (∀ a b, (cmp a b <= 0)%Q → R a b) →
  Sorted R l → Sorted R (insertBy cmp x l).
Proof.
  intros Hgt Hle. induction 1 as [|y l Hs IH Hhd]; simpl.
  - repeat constructor.
  - destruct (Qlt_le_dec 0 (cmp x y)) as [Hlt|Hnle].
    + constructor; [done|].
      destruct l as [|z l]; simpl.
      * constructor. by apply Hgt.
      * destruct (Qlt_le_dec 0 (cmp x z)).
        -- constructor. by inversion Hhd.
        -- constructor. by apply Hgt.
    + constructor; [by constructor|]. constructor. by apply Hle.
Qed.

Lemma numLt_true x y : numLt x y = true ↔ (x < y)%Q.
Proof.
  unfold numLt. destruct (Qlt_le_dec x y); split; try done.
  intros H. exfalso. by apply (Qlt_not_le x y).
Qed.

Lemma numLt_false x y : numLt x y = false ↔ (y <= x)%Q.
Proof.
  unfold numLt. destruct (Qlt_le_dec x y); split; try done.
  intros H. exfalso. by apply (Qlt_not_le x y).
Qed.

Lemma ltb_leb_flip a b : String.ltb a b = true → String.leb a b = true.
Proof.
  unfold String.ltb, String.leb. by destruct (String.compare a b).
Qed.

Lemma not_ltb_leb a b : String.ltb a b = false → String.leb b a = true.
Proof.
  unfold String.ltb, String.leb. rewrite (String.compare_antisym a b).
  by destruct (String.compare b a).
Qed.

(** What a positive and a non-positive result of the comparator mean. *)
Lemma compareRows_pos col dir a b :
  (0 < compareRows col dir a b)%Q → shownBefore (SortState col dir) b a.
Proof.
  unfold shownBefore, compareRows, ordered, keyLe. simpl.
  destruct col, dir; simpl;
    repeat match goal with
    | |- context [String.ltb ?x ?y] =>
        let H := fresh "Hs" in destruct (String.ltb x y) eqn:H
    | |- context [numLt ?x ?y] =>
        let H := fresh "Hn" in destruct (numLt x y) eqn:H
    end;
    intros Hpos; try (by inversion Hpos);
    rewrite ?numLt_true, ?numLt_false in *;
    try (by apply ltb_leb_flip); try (by apply Qlt_le_weak); try done.
Qed.

Lemma compareRows_nonpos col dir a b :
  (compareRows col dir a b <= 0)%Q → shownBefore (SortState col dir) a b.
Proof.
  unfold shownBefore, compareRows, ordered, keyLe. simpl.
  destruct col, dir; simpl;
    repeat match goal with
    | |- context [String.ltb ?x ?y] =>
        let H := fresh "Hs" in destruct (String.ltb x y) eqn:H
    | |- context [numLt ?x ?y] =>
        let H := fresh "Hn" in destruct (numLt x y) eqn:H
    end;
    intros Hpos; try (by exfalso; apply Hpos);
    rewrite ?numLt_true, ?numLt_false in *;
    try (by apply ltb_leb_flip); try (by apply not_ltb_leb);
    try (by apply Qlt_le_weak); try done.
Qed.

(** X13: the table shows a rearrangement of the summary in which every
    row is in order with the row after it: ascending or descending on the
    sort column, team names compared without regard to case. *)
Theorem sortedSummaryData_spec st (summaryData : list weekSummary) :
  Permutation (sortedSummaryData st summaryData) summaryData
  ∧ Sorted (shownBefore st) (sortedSummaryData st summaryData).
Proof.
  split; [apply sortBy_Permutation|].
  destruct st as [col dir]. unfold sortedSummaryData. simpl.
  induction summaryData as [|x l IH]; simpl; [constructor|].
  apply insertBy_Sorted; [|by apply compareRows_nonpos|done].
  intros a b. apply compareRows_pos.
Qed.

(** Sorting leaves a list alone when no row must move behind the row
    after it. *)
Lemma sortBy_sorted_id {A} (R : A → A → Prop) (cmp : A → A → Q) l :
  (∀ a b, R a b → (cmp a b <= 0)%Q) →
  Sorted R l → sortBy cmp l = l.
Proof.
  intros Hle. induction 1 as [|x l Hs IH Hhd]; [done|].
  change (sortBy cmp (x :: l)) with (insertBy cmp x (sortBy cmp l)).
  rewrite IH.
  destruct Hhd as [|y l Hxy]; [done|]. simpl.
  destruct (Qlt_le_dec 0 (cmp x y)) as [Hlt|]; [|done].
  exfalso. apply (Qlt_not_le _ _ Hlt). by apply Hle.
Qed.

(** X14: in the initial sort state (expected value, descending) the
    table shows the rows in the very order [fetchSummary] stored them. *)
Theorem initial_table_order (summary : list weekSummary) :
  sortedSummaryData initialSort (sortSummary summary) = sortSummary summary.
Proof.
  unfold sortedSummaryData, initialSort. simpl.
  apply (sortBy_sorted_id evDescending); [|apply sortSummary_evDescending].
  intros a b Hab. unfold evDescending in Hab.
  unfold compareRows, ordered.
  destruct (numLt (expected_value a) (expected_value b)) eqn:H1.
  - apply numLt_true in H1. exfalso. by apply (Qlt_not_le _ _ H1).
  - destruct (numLt (expected_value b) (expected_value a)); simpl; done.
Qed.

Lemma sortSummary_StronglySorted summary :
  StronglySorted evDescending (sortSummary summary).
Proof.
  apply Sorted_StronglySorted; [|apply sortSummary_evDescending].
  intros a b c Hab Hbc. unfold evDescending in *.
  by apply Qle_trans with (expected_value b).
Qed.

(** X15: the top picks are the first two rows of the sorted summary (all
    of them when there are fewer); together with the rows left out they
    make up the summary, and no row left out has a greater expected value
    than a top pick. *)
Theorem topPicks_best (summary : list weekSummary) :
  let rest := drop 2 (sortSummary summary) in
  Permutation (topPicks summary ++ rest) summary
  ∧ length (topPicks summary) = min 2 (length summary)
  ∧ ∀ x y, x ∈ topPicks summary → y ∈ rest →
      (expected_value y <= expected_value x)%Q.
Proof.
  intros rest. unfold topPicks, rest. split_and!.
  - rewrite take_drop. apply sortBy_Permutation.
  - rewrite length_take. f_equal.
    apply Permutation_length, sortBy_Permutation.
  - intros x y Hx Hy.
    pose proof (sortSummary_StronglySorted summary) as Hs.
    rewrite <- (take_drop 2 (sortSummary summary)) in Hs.
    apply (sorting.StronglySorted_app_1_elem_of _ _ _ x y Hs Hx Hy).
Qed.

End TableFacts.

(** ** Colours between the end points *)

Module ColorMore.
Import Color FutureColor ColorFacts.

Local Open Scope Z_scope.

Lemma mix_same x t : mix (Num x) (Num x) t = Some x.
Proof. unfold mix. f_equal. apply Qfloor_half. ring. Qed.

Lemma Qfloor_half_between (lo hi : Z) (q : Q) :
  (inject_Z lo <= q)%Q → (q <= inject_Z hi)%Q →
  lo ≤ Qfloor (q + (1 # 2)) ≤ hi.
Proof.
  intros Hlo Hhi. split.
  - apply Z.le_trans with (Qfloor (inject_Z lo + (1 # 2))).
    + rewrite (Qfloor_half lo (inject_Z lo)) by reflexivity. lia.
    + apply Qfloor_resp_le. lra.
  - apply Z.le_trans with (Qfloor (inject_Z hi + (1 # 2))).
    + apply Qfloor_resp_le. lra.
    + rewrite (Qfloor_half hi (inject_Z hi)) by reflexivity. lia.
Qed.

Lemma lowerHex_hexDigit d : 0 ≤ d < 16 → lowerHex (hexDigit d) = true.
Proof.
  intros Hd.
  assert (d = 0 ∨ d = 1 ∨ d = 2 ∨ d = 3 ∨ d = 4 ∨ d = 5 ∨ d = 6 ∨ d = 7
          ∨ d = 8 ∨ d = 9 ∨ d = 10 ∨ d = 11 ∨ d = 12 ∨ d = 13 ∨ d = 14
          ∨ d = 15) as Hcases by lia.
  repeat (destruct Hcases as [->|Hcases]; [reflexivity|]).
  subst. reflexivity.
Qed.

Lemma isColor_packed r g b :
  0 ≤ r < 256 → 0 ≤ g < 256 → 0 ≤ b < 256 →
  isColor (String "#" (hex2 r (hex2 g (hex2 b EmptyString)))).
Proof.
  intros Hr Hg Hb. unfold isColor, hex2. do 6 eexists.
  split; [reflexivity|].
  split_and!; apply lowerHex_hexDigit;
    (apply Z.mod_pos_bound; lia)
    || (split; [apply Z.div_pos; lia|apply Z.div_lt_upper_bound; lia]).
Qed.

(** X16: interpolating a colour literal with itself gives that colour,
    whatever the weight. *)
Theorem interpolateColor_same (a : string) (t : Q) :
  isColor a → interpolateColor a a t = a.
Proof.
  intros (c1 & c2 & c3 & c4 & c5 & c6 & -> & Hc1 & Hc2 & Hc3 & Hc4 & Hc5 & Hc6).
  rewrite interpolateColor_bytes by done.
  rewrite !mix_same.
  destruct (parse_byte c1 c2 Hc1 Hc2) as (_ & Hr & Er).
  destruct (parse_byte c3 c4 Hc3 Hc4) as (_ & Hg & Eg).
  destruct (parse_byte c5 c6 Hc5 Hc6) as (_ & Hb & Eb).
  rewrite packed_prints by done.
  unfold hex2 in *.
  injection Er as -> ->. injection Eg as -> ->. injection Eb as -> ->.
  done.
Qed.

Lemma interpolateColor_same_witness :
  interpolateColor "#a78bfa" "#a78bfa" (3 # 7) = "#a78bfa".
Proof.
  apply (interpolateColor_same "#a78bfa" (3 # 7)).
  unfold isColor. do 6 eexists. split; [reflexivity|].
  split_and!; reflexivity.
Defined.

Lemma isColor_literal c1 c2 c3 c4 c5 c6 :
  lowerHex c1 && lowerHex c2 && lowerHex c3
  && lowerHex c4 && lowerHex c5 && lowerHex c6 = true →
  isColor (String "#" (String c1 (String c2 (String c3
             (String c4 (String c5 (String c6 EmptyString))))))).
Proof.
  intros H. repeat (apply andb_true_iff in H as [H ?]).
  unfold isColor. do 6 eexists. split; [reflexivity|]. done.
Qed.

Section Rounding.

Variable fl : Q → Q.
Hypothesis fl_monotone : Doubles.monotone fl.
Hypothesis fl_integers : Doubles.keepsIntegers fl.

Lemma fl_Qeq x y : (x == y)%Q → (fl x == fl y)%Q.
Proof.
  intros Hxy. apply Qle_antisym; apply fl_monotone; rewrite Hxy; apply Qle_refl.
Qed.

(** A rounded result stays between two small integers that bound the
    exact one. *)
Lemma fl_between (lo hi : Z) (x : Q) :
  -255 ≤ lo → hi ≤ 255 →
  (inject_Z lo <= x)%Q → (x <= inject_Z hi)%Q →
  (inject_Z lo <= fl x)%Q ∧ (fl x <= inject_Z hi)%Q.
Proof.
  intros Hlo Hhi Hx1 Hx2.
  assert (lo ≤ hi).
  { rewrite Zle_Qle. by apply Qle_trans with x. }
  split.
  - rewrite <- (fl_integers lo) by lia. by apply fl_monotone.
  - rewrite <- (fl_integers hi) by lia. by apply fl_monotone.
Qed.

(** A channel mixed in double arithmetic with a weight between 0 and 1
    stays between the two channels. *)
Lemma mix_between_doubles x y t :
  0 ≤ x < 256 → 0 ≤ y < 256 → (0 <= t)%Q → (t <= 1)%Q →
  ∃ z, Doubles.mix fl (Num x) (Num y) t = Some z
       ∧ Z.min x y ≤ z ≤ Z.max x y.
Proof.
  intros Hx Hy H0 H1. unfold Doubles.mix. eexists. split; [reflexivity|].
  assert (Hd : (fl (inject_Z y - inject_Z x) == inject_Z (y - x))%Q).
  { rewrite <- (fl_integers (y - x)) by lia. apply fl_Qeq.
    unfold Z.sub. rewrite inject_Z_plus, inject_Z_opp. reflexivity. }
  assert (Hyx : (inject_Z (y - x) == inject_Z y - inject_Z x)%Q).
  { unfold Z.sub. rewrite inject_Z_plus, inject_Z_opp. reflexivity. }
  set (d := fl (inject_Z y - inject_Z x)) in *.
  destruct (Z.le_ge_cases x y) as [Hxy|Hxy].
  - rewrite Z.min_l, Z.max_r by done.
    assert (inject_Z x <= inject_Z y)%Q by (by rewrite <- Zle_Qle).
    destruct (fl_between 0 (y - x) (d * t)) as [Hp0 Hp1]; try lia.
    { change (inject_Z 0) with 0%Q. nra. }
    { rewrite Hyx. nra. }
    change (inject_Z 0) with 0%Q in Hp0. rewrite Hyx in Hp1.
    destruct (fl_between x y (inject_Z x + fl (d * t))) as [Hs0 Hs1];
      try lia; try lra.
    by apply Qfloor_half_between.
  - rewrite Z.min_r, Z.max_l by done.
    assert (inject_Z y <= inject_Z x)%Q by (by rewrite <- Zle_Qle).
    destruct (fl_between (y - x) 0 (d * t)) as [Hp0 Hp1]; try lia.
    { rewrite Hyx. nra. }
    { change (inject_Z 0) with 0%Q. nra. }
    change (inject_Z 0) with 0%Q in Hp1. rewrite Hyx in Hp0.
    destruct (fl_between y x (inject_Z x + fl (d * t))) as [Hs0 Hs1];
      try lia; try lra.
    by apply Qfloor_half_between.
Qed.

(** The colour computed in double arithmetic from two literals, in terms
    of their bytes. *)
Lemma interpolateColor_doubles_bytes c1 c2 c3 c4 c5 c6 k1 k2 k3 k4 k5 k6 t :
  lowerHex c1 = true → lowerHex c2 = true → lowerHex c3 = true →
  lowerHex c4 = true → lowerHex c5 = true → lowerHex c6 = true →
  lowerHex k1 = true → lowerHex k2 = true → lowerHex k3 = true →
  lowerHex k4 = true → lowerHex k5 = true → lowerHex k6 = true →
  Doubles.interpolateColor fl
    (String "#" (String c1 (String c2 (String c3
       (String c4 (String c5 (String c6 EmptyString)))))))
    (String "#" (String k1 (String k2 (String k3
       (String k4 (String k5 (String k6 EmptyString)))))))
    t
  = String "#" (slice1 (toString16
      (add (add (add (Some (shl (Some 1) 24))
                     (Some (shl (Doubles.mix fl (Num (hexByte c1 c2))
                                     (Num (hexByte k1 k2)) t) 16)))
                (Some (shl (Doubles.mix fl (Num (hexByte c3 c4))
                                (Num (hexByte k3 k4)) t) 8)))
           (Doubles.mix fl (Num (hexByte c5 c6))
              (Num (hexByte k5 k6)) t)))).
Proof.
  intros Hc1 Hc2 Hc3 Hc4 Hc5 Hc6 Hk1 Hk2 Hk3 Hk4 Hk5 Hk6.
  unfold Doubles.interpolateColor.
  change (removeHash (String "#" ?s)) with s.
  unfold substring. simpl String.substring.
  destruct (parse_byte c1 c2 Hc1 Hc2) as (-> & _ & _).
  destruct (parse_byte c3 c4 Hc3 Hc4) as (-> & _ & _).
  destruct (parse_byte c5 c6 Hc5 Hc6) as (-> & _ & _).
  destruct (parse_byte k1 k2 Hk1 Hk2) as (-> & _ & _).
  destruct (parse_byte k3 k4 Hk3 Hk4) as (-> & _ & _).
  destruct (parse_byte k5 k6 Hk5 Hk6) as (-> & _ & _).
  reflexivity.
Qed.

(** Between two colour literals, with a weight from 0 to 1, the result
    is [#] and the two digits of three bytes. *)
Lemma interpolateColor_between (a b : string) (t : Q) :
  isColor a → isColor b → (0 <= t)%Q → (t <= 1)%Q →
  ∃ r g b', 0 ≤ r < 256 ∧ 0 ≤ g < 256 ∧ 0 ≤ b' < 256
    ∧ Doubles.interpolateColor fl a b t
      = String "#" (hex2 r (hex2 g (hex2 b' EmptyString))).
Proof.
  intros (c1 & c2 & c3 & c4 & c5 & c6 & -> & Hc1 & Hc2 & Hc3 & Hc4 & Hc5 & Hc6).
  intros (k1 & k2 & k3 & k4 & k5 & k6 & -> & Hk1 & Hk2 & Hk3 & Hk4 & Hk5 & Hk6).
  intros H0 H1.
  rewrite interpolateColor_doubles_bytes by done.
  destruct (parse_byte c1 c2 Hc1 Hc2) as (_ & Hr & _).
  destruct (parse_byte c3 c4 Hc3 Hc4) as (_ & Hg & _).
  destruct (parse_byte c5 c6 Hc5 Hc6) as (_ & Hb & _).
  destruct (parse_byte k1 k2 Hk1 Hk2) as (_ & Hr' & _).
  destruct (parse_byte k3 k4 Hk3 Hk4) as (_ & Hg' & _).
  destruct (parse_byte k5 k6 Hk5 Hk6) as (_ & Hb' & _).
  destruct (mix_between_doubles (hexByte c1 c2) (hexByte k1 k2) t)
    as (r & -> & Hrr); try done.
  destruct (mix_between_doubles (hexByte c3 c4) (hexByte k3 k4) t)
    as (g & -> & Hgg); try done.
  destruct (mix_between_doubles (hexByte c5 c6) (hexByte k5 k6) t)
    as (b & -> & Hbb); try done.
  exists r, g, b. split_and!; try lia.
  apply packed_prints; lia.
Qed.

(** The weights [getFutureValueColor] computes lie between 0 and 1. *)
Lemma weight_between (x : Q) (w : Z) :
  0 < w → 0 ≤ w ≤ 255 →
  (0 <= x)%Q → (x <= inject_Z w)%Q →
  (0 <= fl (fl x / inject_Z w))%Q ∧ (fl (fl x / inject_Z w) <= 1)%Q.
Proof.
  intros Hw Hw255 Hx0 Hx1.
  destruct (fl_between 0 w x) as [Hu0 Hu1]; try lia; try done.
  change (inject_Z 0) with 0%Q in Hu0.
  assert (Hwpos : (0 < inject_Z w)%Q).
  { change 0%Q with (inject_Z 0). by rewrite <- Zlt_Qlt. }
  destruct (fl_between 0 1 (fl x / inject_Z w)) as [Ht0 Ht1]; try lia.
  - change (inject_Z 0) with 0%Q. apply Qle_shift_div_l; [done|lra].
  - change (inject_Z 1) with 1%Q. apply Qle_shift_div_r; [done|lra].
  - done.
Qed.

End Rounding.

(** Without rounding the double-arithmetic colour is the exact one, as
    at the weights 0 and 1. *)
Lemma interpolateColor_no_rounding (a b : string) (t : Q) :
  Doubles.interpolateColor (λ x, x) a b t = Color.interpolateColor a b t.
Proof. reflexivity. Qed.

(** X17: in double arithmetic, between two colour literals and with a
    weight from 0 to 1, [interpolateColor] returns a colour literal: [#]
    and six lower-case hexadecimal digits. Of the rounding the proof uses
    that it keeps the order and leaves small integers unchanged. *)
Theorem interpolateColor_isColor (fl : Q → Q) (a b : string) (t : Q) :
  Doubles.monotone fl → Doubles.keepsIntegers fl →
  isColor a → isColor b → (0 <= t)%Q → (t <= 1)%Q →
  isColor (Doubles.interpolateColor fl a b t).
Proof.
  intros Hm Hi Ha Hb H0 H1.
  destruct (interpolateColor_between fl Hm Hi a b t Ha Hb H0 H1)
    as (r & g & b' & Hr & Hg & Hb' & ->).
  by apply isColor_packed.
Qed.

Lemma interpolateColor_isColor_witness :
  isColor (Doubles.interpolateColor (λ x, x) "#f87171" "#a78bfa" (1 # 3)).
Proof.
  apply (interpolateColor_isColor (λ x, x) "#f87171" "#a78bfa" (1 # 3)).
  - intros x y Hxy. exact Hxy.
  - intros z Hz. reflexivity.
  - unfold isColor. do 6 eexists. split; [reflexivity|].
    split_and!; reflexivity.
  - unfold isColor. do 6 eexists. split; [reflexivity|].
    split_and!; reflexivity.
  - unfold Qle. simpl. lia.
  - unfold Qle. simpl. lia.
Defined.

(** X18: in double arithmetic, [getFutureValueColor] returns a colour
    literal for every finite future value, and for a missing one. *)
Theorem getFutureValueColor_isColor (fl : Q → Q) (futureValue : option Q) :
  Doubles.monotone fl → Doubles.keepsIntegers fl →
  isColor (Doubles.getFutureValueColor fl futureValue).
Proof.
  intros Hm Hi. unfold Doubles.getFutureValueColor.
  destruct futureValue as [fv|]; [|by apply isColor_literal].
  destruct (Qle_bool fv 4) eqn:H4; [by apply isColor_literal|].
  destruct (Qle_bool 10 fv) eqn:H10; [by apply isColor_literal|].
  assert (Hgt : (4 < fv)%Q).
  { apply Qnot_le_lt. intros Hle. apply Qle_bool_iff in Hle. congruence. }
  assert (Hlt : (fv < 10)%Q).
  { apply Qnot_le_lt. intros Hle. apply Qle_bool_iff in Hle. congruence. }
  destruct (Qlt_le_dec fv 6) as [H6|H6].
  - destruct (weight_between fl Hm Hi (fv - 4)%Q 2) as [Ht0 Ht1];
      try lia; try (change (inject_Z 2) with 2%Q; lra).
    change (inject_Z 2) with 2%Q in Ht0, Ht1.
    destruct (interpolateColor_between fl Hm Hi "#f87171" "#a78bfa"
                (fl (fl (fv - 4) / 2))%Q)
      as (r & g & b & Hr & Hg & Hb & ->);
      try (by apply isColor_literal); try done.
    by apply isColor_packed.
  - destruct (weight_between fl Hm Hi (fv - 6)%Q 4) as [Ht0 Ht1];
      try lia; try (change (inject_Z 4) with 4%Q; lra).
    change (inject_Z 4) with 4%Q in Ht0, Ht1.
    destruct (interpolateColor_between fl Hm Hi "#a78bfa" "#60a5fa"
                (fl (fl (fv - 6) / 4))%Q)
      as (r & g & b & Hr & Hg & Hb & ->);
      try (by apply isColor_literal); try done.
    by apply isColor_packed.
Qed.

Lemma getFutureValueColor_isColor_witness :
  isColor (Doubles.getFutureValueColor (λ x, x) (Some (59 # 10)%Q)).
Proof.
  apply (getFutureValueColor_isColor (λ x, x) (Some (59 # 10)%Q)).
  - intros x y Hxy. exact Hxy.
  - intros z Hz. reflexivity.
Defined.

(** X19: when the blue channel of either string does not parse (a
    three-digit colour such as [#fff], say), the result is the string
    [#aN], which is no colour. *)
Theorem interpolateColor_blue_NaN (a b : string) (t : Q) :
  blueChannel a = NaN ∨ blueChannel b = NaN →
  interpolateColor a b t = "#aN".
Proof.
  unfold blueChannel, interpolateColor. intros Hnan.
  assert (Hmix : mix (parseInt (substring (removeHash a) 4 6) (Some 16))
                     (parseInt (substring (removeHash b) 4 6) (Some 16)) t
                 = None).
  { destruct Hnan as [-> | ->]; [done|].
    by destruct (parseInt (substring (removeHash a) 4 6) (Some 16)). }
  rewrite Hmix. reflexivity.
Qed.

Lemma interpolateColor_blue_NaN_witness :
  interpolateColor "#fff" "#a78bfa" (1 # 2) = "#aN".
Proof.
  apply (interpolateColor_blue_NaN "#fff" "#a78bfa" (1 # 2)).
  left. reflexivity.
Defined.

End ColorMore.

(** ** Resizing the fetched picks *)

Module ResizeFacts.
Import Controls.

(** X20: resizing can fail only when entries have to be added and the
    requested length is more than the engine builds. A count that is
    [NaN] leaves the picks as fetched, a count from 0 to the number of
    fetched entries keeps the first so many, and a negative count [-k]
    drops the last [k] entries; whenever the effect succeeds, every entry
    of the result is the fetched entry at that index or a new empty
    entry. *)
Theorem resizePicks_keeps (maxLen : Z) (entries : jsnum)
    (picks : list (list jsval)) :
  (resizePicks maxLen entries picks = None →
     ∃ n, entries = Num n ∧ (Z.of_nat (length picks) < n)%Z
          ∧ (maxLen < n ∨ 2 ^ 32 ≤ n - Z.of_nat (length picks))%Z)
  ∧ (entries = NaN → resizePicks maxLen entries picks = Some picks)
  ∧ (∀ n, entries = Num n → (0 ≤ n ≤ Z.of_nat (length picks))%Z →
       resizePicks maxLen entries picks = Some (take (Z.to_nat n) picks))
  ∧ (∀ n, entries = Num n → (n < 0)%Z →
       resizePicks maxLen entries picks
       = Some (take (length picks - Z.to_nat (- n)) picks))
  ∧ (∀ picks', resizePicks maxLen entries picks = Some picks' →
       ∀ i r, picks' !! i = Some r → picks !! i = Some r ∨ r = []).
Proof.
  unfold resizePicks, gt, lt, sliceTo. destruct entries as [|n].
  - split_and!; try done. intros picks' [= <-] i r Hi. tauto.
  - split_and!.
    + repeat case_bool_decide; try done. intros _.
      exists n. split_and!; [done|lia|lia].
    + done.
    + intros m [= <-] Hm.
      rewrite bool_decide_eq_false_2 by lia.
      case_bool_decide as H2.
      * by rewrite bool_decide_eq_false_2 by lia.
      * f_equal. rewrite take_ge; [done|lia].
    + intros m [= <-] Hm.
      rewrite bool_decide_eq_false_2 by lia.
      rewrite bool_decide_eq_true_2 by lia.
      by rewrite bool_decide_eq_true_2 by lia.
    + intros picks' Hres i r Hi.
      repeat case_bool_decide; try done; injection Hres as <-.
      * apply lookup_app_Some in Hi as [Hi|[_ Hi]]; [tauto|].
        apply lookup_replicate in Hi as [-> _]. tauto.
      * left. by apply lookup_take_Some in Hi as [Hi _].
      * left. by apply lookup_take_Some in Hi as [Hi _].
      * tauto.
Qed.

End ResizeFacts.
